(** * libobs/util/platform-nix.c: POSIX platform shim

    A shallow embedding of [platform-nix.c]:
    - [os_dlopen] (module [Dlopen]),
    - [os_copyfile] (module [CopyFile]),
    - the sleep inhibitor [os_inhibit_sleep_*] with its watchdog thread
      (module [Inhibit]),
    - [os_gettime_ns], [os_sleepto_ns], [os_sleep_ms] (module [Clock]),
    - [os_cpu_usage_info_start], [os_cpu_usage_info_query] (module [CpuUsage]),
    - [os_get_config_path], [os_get_config_path_ptr] (module [ConfigPath]),
    - [os_opendir], [os_readdir], [is_dir] (module [Listing]).

    Calls into libc and other libraries are recorded, in program order, in a
    trace; what the outside world answers (the loader, the file system, thread
    creation, the event primitive) is an explicit argument. *)

From Stdlib Require Import ZArith.
From stdpp Require Import base tactics option list strings gmap.

(** Severity levels of [blog] (util/base.h). *)
Inductive log_level := LOG_ERROR | LOG_WARNING | LOG_INFO | LOG_DEBUG.

#[global] Instance log_level_eq_dec : EqDecision log_level.
Proof. solve_decision. Defined.

(** ** os_dlopen *)
Module Dlopen.

(** Modelled from the spec: the string buffer helpers of util/dstr.h
    ([dstr_init_copy], [dstr_find], [dstr_cat], [dstr_free]), whose code lies
    outside platform-nix.c.  A [dstr] is taken to be a growable character
    string, [dstr_find] the search for the first occurrence of a substring
    ([strstr]: the text from that occurrence on, or NULL), [dstr_cat]
    concatenation. *)
Definition dstr := string.

(** Modelled from the spec: [dstr_init_copy] (util/dstr.h), a fresh buffer
    holding a copy of [src]. *)
Definition dstr_init_copy (src : string) : dstr := src.

(** [strstr] of the C library: the text of [hay] from the first occurrence
    of [needle] on. *)
Fixpoint strstr (hay needle : string) : option string :=
  if String.prefix needle hay then Some hay
  else match hay with
       | EmptyString => None
       | String _ rest => strstr rest needle
       end.

(** Modelled from the spec: [dstr_find] (util/dstr.h), [strstr] on the
    buffer. *)
Definition dstr_find (str : dstr) (find : string) : option string :=
  strstr str find.

(** Modelled from the spec: [dstr_cat] (util/dstr.h), which appends [s]. *)
Definition dstr_cat (dst : dstr) (s : string) : dstr := dst +:+ s.

(** [needle] occurs somewhere in [s]. *)
Definition occurs_in (needle s : string) : Prop :=
  ∃ pre post, s = pre +:+ needle +:+ post.

Inductive dl_flag := RTLD_LAZY.

(** What [os_dlopen] asks of the outside world. *)
Inductive call :=
| c_dlopen (file : string) (flag : dl_flag)
| c_blog (level : log_level) (fmt : string) (args : list string).

Section os_dlopen.

(** The dynamic loader: [dlopen file flag] is the module handle, NULL ([None])
    when the load fails; [dlerror] is the loader's last error text. *)
Variable dlopen : string → dl_flag → option Z.
Variable dlerror : string.

Definition os_dlopen (path : option string) : option Z * list call :=
  match path with
  | None => (None, [])
  | Some path =>
      let dylib_name := dstr_init_copy path in
      let dylib_name :=
        if dstr_find dylib_name ".so" is None
        then dstr_cat dylib_name ".so" else dylib_name in
      let res := dlopen dylib_name RTLD_LAZY in
      (res,
       c_dlopen dylib_name RTLD_LAZY ::
       (if res is None
        then [c_blog LOG_ERROR "os_dlopen(%s->%s): %s\n"
                [path; dylib_name; dlerror]]
        else []))
  end.

End os_dlopen.

(** The file names handed to the loader in a trace, in order. *)
Definition loads (tr : list call) : list string :=
  omap (λ c, if c is c_dlopen file _ then Some file else None) tr.

(** A loader that knows one library. *)
Definition one_library (name : string) (file : string) (flag : dl_flag)
    : option Z :=
  if decide (file = name) then Some 1%Z else None.

End Dlopen.

(** ** os_copyfile *)
Module CopyFile.

(** [sizeof(data)]: the copy buffer. *)
Definition data_size : nat := 4096.

(** The file system: the regular files, by path, with their contents. *)
Abbreviation byte := Byte.byte.
Abbreviation files := (gmap string (list Byte.byte)).

(** What the outside world decides during one copy: whether the two [fopen]
    calls are permitted, the offset of the input at which the device reports a
    read error (if any), and how many bytes the output device accepts before
    [fwrite] comes up short. *)
Record io_env := {
  may_read : string → bool;
  may_create : string → bool;
  read_fault : option nat;
  write_room : nat;
}.

(** The input stream: contents of the file, position, end-of-file and error
    indicators. *)
Record istream := {
  i_content : list byte;
  i_pos : nat;
  i_eof : bool;
  i_error : bool;
}.

(** The output stream, opened for appending: what has been written, and the
    room left on the device. *)
Record ostream := {
  o_written : list byte;
  o_room : nat;
}.

Inductive call :=
| c_access (path : string)
| c_fopen (path mode : string)
| c_fread (got : list byte)
| c_fwrite (data : list byte) (written : nat)
| c_feof
| c_fclose (path : string).

(** [access(path, F_OK) == 0] *)
Definition os_file_exists (fs : files) (path : string) : bool :=
  bool_decide (is_Some (fs !! path)).

Definition fopen_rb (e : io_env) (fs : files) (path : string) : option istream :=
  if may_read e path
  then content ← fs !! path;
       Some {| i_content := content; i_pos := 0%nat; i_eof := false; i_error := false |}
  else None.

Definition fopen_ab (e : io_env) (path : string) (old : list byte) : option ostream :=
  if may_create e path
  then Some {| o_written := old; o_room := write_room e |}
  else None.

(** [fread(data, 1, n, f)]: the bytes delivered and the stream afterwards.  A
    short count sets the end-of-file indicator, or the error indicator when
    the device failed before the end of the file. *)
Definition fread (fault : option nat) (n : nat) (f : istream) : list byte * istream :=
  let len := length (i_content f) in
  let limit := if fault is Some e then e `min` len else len in
  let got := take (n `min` (limit - i_pos f)) (drop (i_pos f) (i_content f)) in
  let short := bool_decide (length got < n)%nat in
  let failed := bool_decide (limit < len)%nat in
  (got,
   {| i_content := i_content f;
      i_pos := i_pos f + length got;
      i_eof := i_eof f || (short && negb failed);
      i_error := i_error f || (short && failed) |}).

(** [fwrite(data, 1, size, f)]: the count written and the stream afterwards.
    The stream has no buffer of its own here: each call hands its bytes to
    the device at once, so a device that is full shows in the count of that
    very call.  A stream that buffers may take the bytes and meet the full
    device only at a later call or in [fclose], whose result [os_copyfile]
    does not read; which bytes reach the device is the same either way. *)
Definition fwrite (data : list byte) (f : ostream) : nat * ostream :=
  let accepted := take (o_room f) data in
  (length accepted,
   {| o_written := o_written f ++ accepted;
      o_room := o_room f - length accepted |}).

(** The [do ... while (size == sizeof(data))] loop.  [None]: the fuel ran out
    before the loop ended. *)
Fixpoint copy_loop (fault : option nat) (fuel : nat)
    (file_in : istream) (file_out : ostream) (tr : list call)
    : option (istream * ostream * list call) :=
  match fuel with
  | O => None
  | S fuel =>
      let '(data, file_in) := fread fault data_size file_in in
      let tr := tr ++ [c_fread data] in
      let size := length data in
      let '(size, file_out, tr) :=
        if decide (size = 0%nat) then (size, file_out, tr)
        else let '(size, file_out) := fwrite data file_out in
             (size, file_out, tr ++ [c_fwrite data size]) in
      if decide (size = data_size)
      then copy_loop fault fuel file_in file_out tr
      else Some (file_in, file_out, tr)
  end.

(** [os_copyfile]: the return value, the file system afterwards and the calls
    made. *)
Definition os_copyfile (e : io_env) (fs : files)
    (file_path_in file_path_out : string) : option (Z * files * list call) :=
  let tr := [c_access file_path_out] in
  if os_file_exists fs file_path_out then Some ((-1)%Z, fs, tr)
  else
    let tr := tr ++ [c_fopen file_path_in "rb"] in
    match fopen_rb e fs file_path_in with
    | None => Some ((-1)%Z, fs, tr)
    | Some file_in =>
        let tr := tr ++ [c_fopen file_path_out "ab+"] in
        match fopen_ab e file_path_out [] with
        | None => Some ((-1)%Z, fs, tr ++ [c_fclose file_path_in])
        | Some file_out =>
            '(file_in, file_out, tr) ←
              copy_loop (read_fault e) (S (length (i_content file_in)))
                file_in file_out tr;
            let ret := if i_eof file_in then 0%Z else (-1)%Z in
            Some (ret, <[file_path_out := o_written file_out]> fs,
                  tr ++ [c_feof; c_fclose file_path_out; c_fclose file_path_in])
        end
    end.

(** The bytes delivered by the [fread] calls of a trace, in order. *)
Definition bytes_read (tr : list call) : list byte :=
  concat (omap (λ c, if c is c_fread got then Some got else None) tr).

(** An outside world without failures, with room for [room] bytes. *)
Definition calm (room : nat) : io_env :=
  {| may_read := λ _, true; may_create := λ _, true;
     read_fault := None; write_room := room |}.

(** What the loop keeps true of the input stream and the trace: the bytes
    delivered so far are the file up to the stream position, and the
    end-of-file indicator is only set at the end of the file. *)
Definition reading (f : istream) (tr : list call) : Prop :=
  (i_pos f ≤ length (i_content f))%nat
  ∧ bytes_read tr = take (i_pos f) (i_content f)
  ∧ (i_eof f = true → i_pos f = length (i_content f)).

(** How far the input can be read: to the offset where the device fails, or
    to the end of the file. *)
Definition read_limit (e : io_env) (content : list byte) : nat :=
  if read_fault e is Some off then off `min` length content else length content.

(** The part of a file of [len] bytes that fills whole buffers. *)
Definition whole_buffers (len : nat) : nat := (len - len `mod` data_size)%nat.

End CopyFile.

(** ** The sleep inhibitor: os_inhibit_sleep_create / _set_active / _destroy *)
Module Inhibit.

#[local] Open Scope Z_scope.

(** Error numbers of errno.h (Linux values). *)
Definition EAGAIN : Z := 11.
Definition ETIMEDOUT : Z := 110.

Inductive signal := SIGPIPE.
Inductive spawn_flag := POSIX_SPAWN_SETSIGDEF | POSIX_SPAWN_SETSIGMASK.

Record posix_spawnattr := {
  sa_sigmask : list signal;
  sa_sigdefault : list signal;
  sa_flags : list spawn_flag;
}.

Inductive os_event_type := OS_EVENT_TYPE_MANUAL | OS_EVENT_TYPE_AUTO.
Record os_event := { ev_type : os_event_type }.

Inductive dbus_sleep_info := dbus_session.

#[global] Instance signal_eq_dec : EqDecision signal.
Proof. solve_decision. Defined.
#[global] Instance spawn_flag_eq_dec : EqDecision spawn_flag.
Proof. solve_decision. Defined.
#[global] Instance posix_spawnattr_eq_dec : EqDecision posix_spawnattr.
Proof. solve_decision. Defined.
#[global] Instance os_event_type_eq_dec : EqDecision os_event_type.
Proof. solve_decision. Defined.
#[global] Instance dbus_sleep_info_eq_dec : EqDecision dbus_sleep_info.
Proof. solve_decision. Defined.

(** [struct os_inhibit_info], in the build with [HAVE_DBUS].  A NULL pointer
    field is [None].  The [pthread_t screensaver_thread] field has no
    counterpart here: the thread it designates is the [watchdog] of the
    [world] below. *)
Record os_inhibit_info := {
  dbus : option dbus_sleep_info;
  stop_event : option os_event;
  reason : string;
  attr : posix_spawnattr;
  active : bool;
}.

Definition with_active (info : os_inhibit_info) (a : bool) : os_inhibit_info :=
  {| dbus := dbus info; stop_event := stop_event info; reason := reason info;
     attr := attr info; active := a |}.

(** The calls made to the desktop bus, the event and thread primitives, the
    process-spawn facility, the log and the allocator. *)
Inductive call :=
| c_dbus_sleep_info_create
| c_dbus_inhibit_sleep (reason : string) (active : bool)
| c_dbus_sleep_info_destroy (session : option dbus_sleep_info)
| c_os_event_init (type : os_event_type)
| c_os_event_signal
| c_os_event_timedwait (milliseconds : Z) (ret : Z)
| c_os_event_destroy
| c_posix_spawnattr_init
| c_posix_spawnattr_destroy
| c_pthread_create (ret : Z)
| c_pthread_join
| c_posix_spawnp (file : string) (argv : list string) (attr : posix_spawnattr) (ret : Z)
| c_waitpid (ret : Z)
| c_blog (level : log_level) (fmt : string) (args : list Z)
| c_bstrdup (s : string)
| c_bfree (what : string).

#[global] Instance call_eq_dec : EqDecision call.
Proof. solve_decision. Defined.

(** The part of the process outside the handle: whether the watchdog thread of
    the handle is running (created and not yet joined), the calls made so far,
    oldest first, and whether behaviour became undefined. *)
Record world := {
  watchdog : bool;
  trace : list call;
  fault : bool;
}.

Definition emit (c : call) (w : world) : world :=
  {| watchdog := watchdog w; trace := trace w ++ [c]; fault := fault w |}.

(** [pthread_create] returns 0 when the thread was created and an error number
    otherwise; error numbers are positive, and no thread exists then. *)
Definition pthread_create (ret : Z) (w : world) : world :=
  emit (c_pthread_create ret)
    {| watchdog := watchdog w || (ret =? 0); trace := trace w; fault := fault w |}.

Definition os_event_signal (w : world) : world := emit c_os_event_signal w.

(** [pthread_join] returns once the thread has ended.  Joining a thread that
    is not running (never created, or joined before) is undefined. *)
Definition pthread_join (w : world) : world :=
  emit c_pthread_join
    {| watchdog := false; trace := trace w; fault := fault w || negb (watchdog w) |}.

(** [os_inhibit_sleep_create].  [session] is the answer of
    [dbus_sleep_info_create], [event_ok] whether [os_event_init] could make the
    event. *)
Definition os_inhibit_sleep_create (session : option dbus_sleep_info)
    (event_ok : bool) (reason : string) (w : world) : os_inhibit_info * world :=
  let w := emit c_dbus_sleep_info_create w in
  let w := emit (c_os_event_init OS_EVENT_TYPE_AUTO) w in
  let w := emit c_posix_spawnattr_init w in
  let w := emit (c_bstrdup reason) w in
  ({| dbus := session;
      stop_event := if event_ok then Some {| ev_type := OS_EVENT_TYPE_AUTO |} else None;
      reason := reason;
      attr := {| sa_sigmask := []; sa_sigdefault := [SIGPIPE];
                 sa_flags := [POSIX_SPAWN_SETSIGDEF; POSIX_SPAWN_SETSIGMASK] |};
      active := false |}, w).

(** [if (info->dbus) dbus_inhibit_sleep(info->dbus, info->reason, active);] *)
Definition bus_call (i : os_inhibit_info) (act : bool) (w : world) : world :=
  if dbus i is Some _ then emit (c_dbus_inhibit_sleep (reason i) act) w else w.

(** [os_inhibit_sleep_set_active].  [create_ret] is what [pthread_create]
    returns if it is called.  The result is the return value, the handle
    afterwards and the world afterwards. *)
Definition os_inhibit_sleep_set_active (create_ret : Z)
    (info : option os_inhibit_info) (act : bool) (w : world)
    : bool * option os_inhibit_info * world :=
  match info with
  | None => (false, None, w)
  | Some i =>
      if bool_decide (active i = act) then (false, Some i, w)
      else
        let w := bus_call i act w in
        if stop_event i is None then (true, Some i, w)
        else if act then
          let w := pthread_create create_ret w in
          if create_ret <? 0 then
            (false, Some i,
             emit (c_blog LOG_ERROR "Failed to create screensaver inhibitor thread" []) w)
          else (true, Some (with_active i act), w)
        else
          let w := os_event_signal w in
          let w := pthread_join w in
          (true, Some (with_active i act), w)
  end.

(** [os_inhibit_sleep_destroy]: the handle is gone afterwards.  The inner
    [set_active (info, false)] never reaches [pthread_create]. *)
Definition os_inhibit_sleep_destroy (info : option os_inhibit_info) (w : world)
    : world :=
  match info with
  | None => w
  | Some i =>
      let w := (os_inhibit_sleep_set_active 0 info false w).2 in
      let w := emit (c_dbus_sleep_info_destroy (dbus i)) w in
      let w := emit c_os_event_destroy w in
      let w := emit c_posix_spawnattr_destroy w in
      let w := emit (c_bfree "reason") w in
      emit (c_bfree "info") w
  end.

(** *** The watchdog thread *)

(** The answers the watchdog gets during one turn of its loop: from
    [os_event_timedwait], and, should it reset the screensaver, from
    [posix_spawnp] and from the successive [waitpid] calls. *)
Record round := {
  wait_ret : Z;
  spawn_ret : Z;
  waitpid_rets : list Z;
}.

(** Where the thread is when the answers given so far are used up. *)
Inductive thread_status := Waiting | Reaping | Exited.

#[global] Instance thread_status_eq_dec : EqDecision thread_status.
Proof. solve_decision. Defined.

(** [while (waitpid(pid, &status, 0) == -1);] *)
Fixpoint reap (rets : list Z) : bool * list call :=
  match rets with
  | [] => (false, [])
  | r :: rets =>
      if r =? -1
      then let '(done, tr) := reap rets in (done, c_waitpid r :: tr)
      else (true, [c_waitpid r])
  end.

(** [reset_screensaver]: whether it returned, and the calls it made. *)
Definition reset_screensaver (info : os_inhibit_info) (r : round)
    : bool * list call :=
  let spawn := c_posix_spawnp "xdg-screensaver" ["xdg-screensaver"; "reset"]
                 (attr info) (spawn_ret r) in
  if spawn_ret r =? 0 then
    let '(done, tr) := reap (waitpid_rets r) in (done, spawn :: tr)
  else
    (true, [spawn; c_blog LOG_WARNING "Failed to create xdg-screensaver: %d" [spawn_ret r]]).

(** [screensaver_thread]: the loop
    [while (os_event_timedwait(info->stop_event, 30000) == ETIMEDOUT)
       reset_screensaver(info);] *)
Fixpoint screensaver_thread (info : os_inhibit_info) (rounds : list round)
    : thread_status * list call :=
  match rounds with
  | [] => (Waiting, [])
  | r :: rounds =>
      let wait := c_os_event_timedwait 30000 (wait_ret r) in
      if wait_ret r =? ETIMEDOUT then
        let '(done, tr) := reset_screensaver info r in
        if done
        then let '(st, tr') := screensaver_thread info rounds in
             (st, wait :: tr ++ tr')
        else (Reaping, wait :: tr)
      else (Exited, [wait])
  end.

(** Number of subprocesses spawned in a trace. *)
Definition is_spawn (c : call) : bool :=
  if c is c_posix_spawnp _ _ _ _ then true else false.





(** *** A client driving one handle *)

Inductive op :=
| op_set_active (act : bool) (create_ret : Z)
| op_destroy.

(** The client's pointer (NULL once the handle is destroyed) and the world. *)
Definition apply_op (o : op) (s : option os_inhibit_info * world)
    : option os_inhibit_info * world :=
  match o with
  | op_set_active act create_ret =>
      let '(_, info, w) := os_inhibit_sleep_set_active create_ret s.1 act s.2 in
      (info, w)
  | op_destroy => (None, os_inhibit_sleep_destroy s.1 s.2)
  end.

Definition run_ops (ops : list op) (s : option os_inhibit_info * world)
    : option os_inhibit_info * world :=
  foldl (λ s o, apply_op o s) s ops.

Definition idle : world := {| watchdog := false; trace := []; fault := false |}.

(** The handle right after [os_inhibit_sleep_create] in a process with no
    watchdog, followed by the operations [ops]. *)
Definition session_run (session : option dbus_sleep_info) (event_ok : bool)
    (reason : string) (ops : list op) : option os_inhibit_info * world :=
  let '(i, w) := os_inhibit_sleep_create session event_ok reason idle in
  run_ops ops (Some i, w).

(** The active flag the client sees; a destroyed handle is not active. *)
Definition is_active (info : option os_inhibit_info) : bool :=
  if info is Some i then active i else false.

(** A thread creation that succeeds or answers a negative number. *)
Definition reported (o : op) : Prop :=
  if o is op_set_active _ create_ret then create_ret ≤ 0 else True.

(** The watchdog runs exactly when the handle is active, nothing undefined
    has happened, and the handle has its stop event. *)
Definition in_step (s : option os_inhibit_info * world) : Prop :=
  watchdog s.2 = is_active s.1
  ∧ fault s.2 = false
  ∧ ∀ i, s.1 = Some i → is_Some (stop_event i).

(** *** The caller and the watchdog side by side *)

(** Modelled from the spec: the event primitive of util/threading.h, whose
    code lies outside platform-nix.c.  It is an auto-reset signal with [signal] and
    [wait_with_timeout(ms) → {timed_out | signaled}]: a wait that finds the
    event signalled clears it and returns 0, a wait that does not returns
    [ETIMEDOUT] once the time is up. *)
Definition os_event_timedwait (signalled : bool) : Z :=
  if signalled then 0 else ETIMEDOUT.

(** What happened, and on which thread. *)
Inductive occurrence :=
| by_caller (c : call)
| by_watchdog (c : call)
| watchdog_exit.

(** The calls the caller still has to make before its function returns, where
    the watchdog is, the state of the stop event, and what happened so far,
    oldest first. *)
Record config := {
  pending : list call;
  wd : thread_status;
  signalled : bool;
  hist : list occurrence;
}.

(** One step of either thread.  The caller makes its next call; its
    [pthread_join] can only return once the watchdog has exited.  The watchdog,
    when its wait returns, runs one turn of [screensaver_thread]. *)
Inductive step (info : os_inhibit_info) : config → config → Prop :=
| step_call c rest st s h :
    c ≠ c_pthread_join →
    step info
      {| pending := c :: rest; wd := st; signalled := s; hist := h |}
      {| pending := rest; wd := st;
         signalled := s || bool_decide (c = c_os_event_signal);
         hist := h ++ [by_caller c] |}
| step_join rest s h :
    step info
      {| pending := c_pthread_join :: rest; wd := Exited; signalled := s; hist := h |}
      {| pending := rest; wd := Exited; signalled := s;
         hist := h ++ [by_caller c_pthread_join] |}
| step_watchdog p s h r st tr :
    wait_ret r = os_event_timedwait s →
    screensaver_thread info [r] = (st, tr) →
    step info
      {| pending := p; wd := Waiting; signalled := s; hist := h |}
      {| pending := p; wd := st; signalled := false;
         hist := h ++ (by_watchdog <$> tr)
                   ++ (if decide (st = Exited) then [watchdog_exit] else []) |}.

(** The two ways of stopping an active handle. *)
Inductive stop_call := stop_set_active | stop_destroy.

Definition running : world := {| watchdog := true; trace := []; fault := false |}.

(** The calls the stopping function makes, in program order. *)
Definition calls_of (how : stop_call) (i : os_inhibit_info) : list call :=
  match how with
  | stop_set_active => trace (os_inhibit_sleep_set_active 0 (Some i) false running).2
  | stop_destroy => trace (os_inhibit_sleep_destroy (Some i) running)
  end.

(** The caller enters the stopping function while the watchdog is at [st]
    and the stop event is clear. *)
Definition start (how : stop_call) (i : os_inhibit_info) (st : thread_status)
    : config :=
  {| pending := calls_of how i; wd := st; signalled := false; hist := [] |}.

(** Calls that give up a resource of the handle. *)
Definition is_release (c : call) : bool :=
  match c with
  | c_dbus_sleep_info_destroy _ | c_os_event_destroy
  | c_posix_spawnattr_destroy | c_bfree _ => true
  | _ => false
  end.

Definition releases (o : occurrence) : bool :=
  if o is by_caller c then is_release c else false.

(** Nothing was given up in [h]. *)
Definition quiet (h : list occurrence) : Prop :=
  Forall (λ o, releases o = false) h.

(** Calls made ahead of the signal. *)
Definition early (c : call) : Prop :=
  c ≠ c_pthread_join ∧ c ≠ c_os_event_signal ∧ is_release c = false.

Definition no_join (l : list call) : Prop := Forall (λ c, c ≠ c_pthread_join) l.

(** The history shows the signal, later the exit of the watchdog, later the
    return of the join, and nothing given up before that return. *)
Definition joined_in_order (h : list occurrence) : Prop :=
  ∃ h1 h2 h3 h4,
    h = h1 ++ by_caller c_os_event_signal :: h2 ++ watchdog_exit :: h3
           ++ by_caller c_pthread_join :: h4
    ∧ quiet (h1 ++ h2 ++ h3).

(** Where a stopping call can be: ahead of its signal, with the event clear
    and the watchdog alive; past the signal with the watchdog alive; waiting
    in the join with the watchdog gone; past the join. *)
Inductive phase : config → Prop :=
| ph_before pre post st h :
    Forall early pre → no_join post → st ≠ Exited → quiet h →
    phase {| pending := pre ++ c_os_event_signal :: c_pthread_join :: post;
             wd := st; signalled := false; hist := h |}
| ph_signalled post st s h1 h2 :
    no_join post → st ≠ Exited → quiet (h1 ++ h2) →
    phase {| pending := c_pthread_join :: post; wd := st; signalled := s;
             hist := h1 ++ by_caller c_os_event_signal :: h2 |}
| ph_exited post s h1 h2 h3 :
    no_join post → quiet (h1 ++ h2 ++ h3) →
    phase {| pending := c_pthread_join :: post; wd := Exited; signalled := s;
             hist := h1 ++ by_caller c_os_event_signal :: h2
                       ++ watchdog_exit :: h3 |}
| ph_joined post s h :
    no_join post → joined_in_order h →
    phase {| pending := post; wd := Exited; signalled := s; hist := h |}.

(** A handle made by [os_inhibit_sleep_create] and set active. *)
Definition active_handle (session : option dbus_sleep_info) : os_inhibit_info :=
  with_active (os_inhibit_sleep_create session true "recording" idle).1 true.

(** *** More about a client driving one handle *)

(** Whether the desktop bus is left inhibited by the calls of a trace: the
    flag of the last [dbus_inhibit_sleep], false when there was none. *)
Definition bus_held (tr : list call) : bool :=
  foldl (λ held c, if c is c_dbus_inhibit_sleep _ act then act else held) false tr.

(** An answer [pthread_create] can give: 0 or an error number. *)
Definition possible (o : op) : Prop :=
  if o is op_set_active _ create_ret then 0 ≤ create_ret else True.

(** A thread creation that succeeds. *)
Definition starts (o : op) : Prop :=
  if o is op_set_active _ create_ret then create_ret = 0 else True.

(** The client's handle has its bus session and its stop event, and the bus
    is inhibited exactly when the handle is active. *)
Definition bus_in_step (s : option os_inhibit_info * world) : Prop :=
  bus_held (trace s.2) = is_active s.1
  ∧ ∀ i, s.1 = Some i → is_Some (dbus i) ∧ is_Some (stop_event i).

(** Where a stopping call can be, with what its completion depends on: past
    the signal and until the watchdog has gone, the stop event stays set. *)
Inductive stage : config → Prop :=
| sg_before pre post st s h :
    Forall early pre → no_join post →
    stage {| pending := pre ++ c_os_event_signal :: c_pthread_join :: post;
             wd := st; signalled := s; hist := h |}
| sg_signalled post st h :
    no_join post →
    stage {| pending := c_pthread_join :: post; wd := st; signalled := true;
             hist := h |}
| sg_exited post s h :
    no_join post →
    stage {| pending := c_pthread_join :: post; wd := Exited; signalled := s;
             hist := h |}
| sg_joined post st s h :
    no_join post →
    stage {| pending := post; wd := st; signalled := s; hist := h |}.

End Inhibit.

(** ** Time: os_gettime_ns, os_sleepto_ns, os_sleep_ms *)
Module Clock.

#[local] Open Scope Z_scope.

(** Arithmetic of [uint64_t] and [uint32_t]. *)
Definition uint64 (z : Z) : Z := z mod 2 ^ 64.
Definition uint32 (z : Z) : Z := z mod 2 ^ 32.

(** [struct timespec]: [time_t tv_sec] and [long tv_nsec]. *)
Record timespec := { tv_sec : Z; tv_nsec : Z }.

Definition no_time : timespec := {| tv_sec := 0; tv_nsec := 0 |}.

Inductive call :=
| c_nanosleep (req : timespec)
| c_usleep (usec : Z).

(** [os_gettime_ns], from what [clock_gettime(CLOCK_MONOTONIC, &ts)] stored:
    [(uint64_t) ts.tv_sec * 1000000000ULL + (uint64_t) ts.tv_nsec]. *)
Definition os_gettime_ns (ts : timespec) : Z :=
  uint64 (uint64 (uint64 (tv_sec ts) * 1000000000) + uint64 (tv_nsec ts)).

(** What one [nanosleep] call can answer: 0 after the whole time; -1 after a
    signal, with the time left stored in [remain]; -1 for another reason,
    with [remain] as it was. *)
Inductive nanosleep_answer :=
| slept
| interrupted (remain : timespec)
| refused.

(** [while (nanosleep(&req, &remain)) { req = remain; memset(&remain, 0, ...); }]
    with [remain] zeroed on entry: whether the loop ended, and the calls that
    were answered. *)
Fixpoint sleep_loop (req : timespec) (answers : list nanosleep_answer)
    : bool * list call :=
  match answers with
  | [] => (false, [])
  | slept :: _ => (true, [c_nanosleep req])
  | interrupted remain :: answers =>
      let '(done, tr) := sleep_loop remain answers in (done, c_nanosleep req :: tr)
  | refused :: answers =>
      let '(done, tr) := sleep_loop no_time answers in (done, c_nanosleep req :: tr)
  end.

(** [os_sleepto_ns]: [clock] is what the monotonic clock shows on entry,
    [time_target] a [uint64_t].  The result is the return value ([None] while
    the loop has not ended) and the calls. *)
Definition os_sleepto_ns (clock : timespec) (time_target : Z)
    (answers : list nanosleep_answer) : option bool * list call :=
  let current := os_gettime_ns clock in
  if time_target <? current then (Some false, [])
  else
    let time_target := uint64 (time_target - current) in
    let req := {| tv_sec := time_target / 1000000000;
                  tv_nsec := time_target mod 1000000000 |} in
    let '(done, tr) := sleep_loop req answers in
    (if done then Some true else None, tr).

(** [os_sleep_ms]: [usleep(duration*1000)], the product taken in
    [uint32_t]. *)
Definition os_sleep_ms (duration : Z) : list call :=
  [c_usleep (uint32 (duration * 1000))].

(** A time as the clock gives it, small enough for [os_gettime_ns]. *)
Definition clock_time (ts : timespec) : Prop :=
  0 ≤ tv_sec ts ≤ 18446744072 ∧ 0 ≤ tv_nsec ts < 1000000000.

End Clock.

(** ** CPU usage: os_cpu_usage_info_start / _query *)
Module CpuUsage.

#[local] Open Scope Z_scope.

(** [clock_t] is a signed integer of 64 bits: an integer brought back into
    its range, as its arithmetic does on this platform. *)
Definition clock_t (z : Z) : Z := (z + 2 ^ 63) mod 2 ^ 64 - 2 ^ 63.

(** [struct os_cpu_usage_info]; the times are [clock_t] values. *)
Record os_cpu_usage_info := {
  last_cpu_time : Z;
  last_sys_time : Z;
  last_user_time : Z;
  core_count : Z;
}.

(** What one [times(&time_sample)] call returned and stored. *)
Record sample := {
  cpu_time : Z;
  tms_stime : Z;
  tms_utime : Z;
}.

(** [os_cpu_usage_info_start]; [nprocessors] is the answer of
    [sysconf(_SC_NPROCESSORS_ONLN)]. *)
Definition os_cpu_usage_info_start (s : sample) (nprocessors : Z)
    : os_cpu_usage_info :=
  {| last_cpu_time := cpu_time s; last_sys_time := tms_stime s;
     last_user_time := tms_utime s; core_count := nprocessors |}.

(** The [double] that [os_cpu_usage_info_query] returns: [0.0], or
    [(double) busy / (double) elapsed / (double) cores * 100.0], of which the
    integer operands are kept. *)
Inductive usage :=
| idle_usage
| load (busy elapsed cores : Z).

(** [os_cpu_usage_info_query]: the result and the structure afterwards. *)
Definition os_cpu_usage_info_query (info : option os_cpu_usage_info) (s : sample)
    : usage * option os_cpu_usage_info :=
  match info with
  | None => (idle_usage, None)
  | Some i =>
      if (cpu_time s <=? last_cpu_time i)
         || (tms_stime s <? last_sys_time i)
         || (tms_utime s <? last_user_time i)
      then (idle_usage, Some i)
      else
        (load (clock_t (clock_t (tms_stime s - last_sys_time i)
                        + clock_t (tms_utime s - last_user_time i)))
              (clock_t (cpu_time s - last_cpu_time i))
              (core_count i),
         Some {| last_cpu_time := cpu_time s; last_sys_time := tms_stime s;
                 last_user_time := tms_utime s; core_count := core_count i |})
  end.

(** Successive queries on one structure: the results, oldest first, and the
    structure at the end. *)
Fixpoint queries (i : os_cpu_usage_info) (samples : list sample)
    : list usage * os_cpu_usage_info :=
  match samples with
  | [] => ([], i)
  | s :: samples =>
      match os_cpu_usage_info_query (Some i) s with
      | (u, Some i') => let '(us, j) := queries i' samples in (u :: us, j)
      | (u, None) => ([u], i)
      end
  end.

Definition busy_of (u : usage) : Z := if u is load busy _ _ then busy else 0.
Definition elapsed_of (u : usage) : Z := if u is load _ elapsed _ then elapsed else 0.

(** A computed load divides a busy time that is not negative by an elapsed
    time that is positive and by the core count [n]. *)
Definition sound_usage (n : Z) (u : usage) : Prop :=
  if u is load busy elapsed cores then 0 ≤ busy ∧ 0 < elapsed ∧ cores = n
  else True.

Definition sum_list (l : list Z) : Z := foldr Z.add 0 l.

(** Times far enough from the ends of [clock_t] for the differences and
    their sum in [os_cpu_usage_info_query] not to overflow. *)
Definition ticks (v : Z) : Prop := - 2 ^ 61 ≤ v < 2 ^ 61.

Definition ticks_sample (s : sample) : Prop :=
  ticks (cpu_time s) ∧ ticks (tms_stime s) ∧ ticks (tms_utime s).

Definition ticks_info (i : os_cpu_usage_info) : Prop :=
  ticks (last_cpu_time i) ∧ ticks (last_sys_time i) ∧ ticks (last_user_time i).

End CpuUsage.

(** ** Configuration paths: os_get_config_path / os_get_config_path_ptr *)
Module ConfigPath.

(** [bcrash] ends the process. *)
Inductive outcome (A : Type) :=
| crashed (msg : string)
| returned (a : A).
Arguments crashed {A} msg.
Arguments returned {A} a.

(** [snprintf(dst, size, ...)] for the formatted text [text]: the characters
    left in [dst] ([None]: [dst] untouched, when [size] is 0) and the return
    value, the length of the whole text. *)
Definition snprintf (size : nat) (text : string) : option string * Z :=
  (if size is O then None else Some (String.substring 0 (size - 1) text),
   Z.of_nat (String.length text)).

(** [!name || !*name] *)
Definition no_name (name : option string) : bool :=
  match name with
  | None | Some EmptyString => true
  | Some _ => false
  end.

Definition name_text (name : option string) : string := default "" name.

Section config_path.

(** The build option [USE_XDG] and the environment ([getenv]). *)
Variable USE_XDG : bool.
Variable getenv : string → option string.

Definition os_get_config_path (size : nat) (name : option string)
    : outcome (option string * Z) :=
  if USE_XDG then
    match getenv "XDG_CONFIG_HOME" with
    | None =>
        match getenv "HOME" with
        | None => crashed "Could not get $HOME\n"
        | Some home_ptr =>
            if no_name name
            then returned (snprintf size (home_ptr +:+ "/.config"))
            else returned (snprintf size
                             (home_ptr +:+ "/.config/" +:+ name_text name))
        end
    | Some xdg_ptr =>
        if no_name name
        then returned (snprintf size xdg_ptr)
        else returned (snprintf size (xdg_ptr +:+ "/" +:+ name_text name))
    end
  else
    match getenv "HOME" with
    | None => crashed "Could not get $HOME\n"
    | Some path_ptr =>
        if no_name name
        then returned (snprintf size path_ptr)
        else returned (snprintf size (path_ptr +:+ "/." +:+ name_text name))
    end.

(** [os_get_config_path_ptr], for a [name] that is not NULL; the buffer
    helpers are those of [Dlopen]. *)
Definition os_get_config_path_ptr (name : string) : outcome string :=
  if USE_XDG then
    match getenv "XDG_CONFIG_HOME" with
    | None =>
        match getenv "HOME" with
        | None => crashed "Could not get $HOME\n"
        | Some home_ptr =>
            let path := Dlopen.dstr_init_copy home_ptr in
            let path := Dlopen.dstr_cat path "/.config/" in
            let path := Dlopen.dstr_cat path name in
            returned path
        end
    | Some xdg_ptr =>
        let path := Dlopen.dstr_init_copy xdg_ptr in
        let path := Dlopen.dstr_cat path "/" in
        let path := Dlopen.dstr_cat path name in
        returned path
    end
  else
    match getenv "HOME" with
    | None => crashed "Could not get $HOME\n"
    | Some path_ptr =>
        let path := Dlopen.dstr_init_copy path_ptr in
        let path := Dlopen.dstr_cat path "/." in
        let path := Dlopen.dstr_cat path name in
        returned path
    end.

End config_path.

(** An environment given by a list of bindings. *)
Definition env_of (bindings : list (string * string)) (var : string)
    : option string :=
  (λ found, found.2.2) <$> list_find (λ b, b.1 = var) bindings.

End ConfigPath.

(** ** Directory listing: os_opendir, os_readdir, is_dir *)
Module Listing.

(** [struct os_dirent] (platform.h): the name, in a buffer of 256
    characters, and whether it is a directory. *)
Record os_dirent := {
  d_name : string;
  directory : bool;
}.

(** [struct os_dir].  [dir], the [DIR *] stream, is the list of the names
    that [readdir] has still to deliver. *)
Record os_dir := {
  path : string;
  dir : list string;
  cur_dirent : option string;
  out : os_dirent;
}.

(** What [stat] answers for a path. *)
Inductive stat_result :=
| stat_ok (is_directory : bool)
| stat_failed (errno : Z).

Inductive call :=
| c_blog (level : log_level) (fmt : string) (path : string) (errno : Z).

Section listing.

(** The file system: [opendir path] is the names in the directory, in the
    order [readdir] delivers them, or NULL; [stat path] as above. *)
Variable opendir : string → option (list string).
Variable stat : string → stat_result.

(** [os_opendir]; the structure comes zeroed from [bzalloc]. *)
Definition os_opendir (path : string) : option os_dir :=
  match opendir path with
  | None => None
  | Some dir_val =>
      Some {| path := path; dir := dir_val; cur_dirent := None;
              out := {| d_name := ""; directory := false |} |}
  end.

Definition is_dir (path : string) : bool * list call :=
  match stat path with
  | stat_ok is_directory => (is_directory, [])
  | stat_failed errno =>
      (false, [c_blog LOG_DEBUG "is_dir: stat for %s failed, errno: %d" path errno])
  end.

(** [os_readdir]: the entry returned (it is [&dir->out]; NULL is [None]), the
    structure afterwards, and the lines logged.  [strncpy] takes at most 255
    characters of the name; [dstr_copy] into the empty [file_path] is the
    copy of [Dlopen]. *)
Definition os_readdir (d : option os_dir)
    : option os_dirent * option os_dir * list call :=
  match d with
  | None => (None, None, [])
  | Some d =>
      match dir d with
      | [] =>
          (None,
           Some {| path := path d; dir := []; cur_dirent := None; out := out d |},
           [])
      | name :: rest =>
          let d_name := String.substring 0 255 name in
          let file_path := Dlopen.dstr_init_copy (path d) in
          let file_path := Dlopen.dstr_cat file_path "/" in
          let file_path := Dlopen.dstr_cat file_path d_name in
          let '(is_directory, log) := is_dir file_path in
          let out := {| d_name := d_name; directory := is_directory |} in
          (Some out,
           Some {| path := path d; dir := rest; cur_dirent := Some name;
                   out := out |},
           log)
      end
  end.

(** [n] calls of [os_readdir] in a row: what each returned, and all that
    was logged. *)
Fixpoint readdir_times (n : nat) (d : option os_dir)
    : list (option os_dirent) * list call :=
  match n with
  | O => ([], [])
  | S n =>
      let '(ent, d, log) := os_readdir d in
      let '(ents, logs) := readdir_times n d in
      (ent :: ents, log ++ logs)
  end.

(** The entry for a name in the directory [path]. *)
Definition entry_of (path name : string) : os_dirent :=
  {| d_name := name;
     directory := if stat (path +:+ "/" +:+ name) is stat_ok true then true else false |}.

Definition stat_log (path name : string) : list call :=
  if stat (path +:+ "/" +:+ name) is stat_failed errno
  then [c_blog LOG_DEBUG "is_dir: stat for %s failed, errno: %d"
          (path +:+ "/" +:+ name) errno]
  else [].

End listing.

(** A directory with a subdirectory, a file and a dangling link. *)
Definition sample_opendir (path : string) : option (list string) :=
  if decide (path = "/etc/obs") then Some ["."; ".."; "plugins"; "global.ini"; "stale"]
  else None.

Definition sample_stat (path : string) : stat_result :=
  if decide (path = "/etc/obs/global.ini") then stat_ok false
  else if decide (path = "/etc/obs/stale") then stat_failed 2
  else stat_ok true.

End Listing.

(** * Properties *)

Module DlopenProps.
Import Dlopen.

Example strstr_inside : strstr "libfoo.so.1" ".so" = Some ".so.1".
Proof. reflexivity. Qed.

Example strstr_absent : strstr "libobs-opengl" ".so" = None.
Proof. reflexivity. Qed.

(** A load that fails: the name got its suffix, and the failure is logged. *)
Example os_dlopen_fails :
  os_dlopen (one_library "libobs-opengl.so") "cannot open" (Some "test-input")
  = (None, [c_dlopen "test-input.so" RTLD_LAZY;
            c_blog LOG_ERROR "os_dlopen(%s->%s): %s\n"
              ["test-input"; "test-input.so"; "cannot open"]]).
Proof. reflexivity. Qed.

(** ".so" in a directory name is enough to leave the path as it is. *)
Example os_dlopen_so_in_directory :
  loads (os_dlopen (one_library "libobs-opengl.so") "" (Some "my.sounds/plugin")).2
  = ["my.sounds/plugin"].
Proof. reflexivity. Qed.

Lemma append_cons (a : Ascii.ascii) (s t : string) :
  String a s +:+ t = String a (s +:+ t).
Proof. reflexivity. Qed.

Lemma append_nil (t : string) : "" +:+ t = t.
Proof. reflexivity. Qed.

Lemma prefix_app (p s : string) :
  String.prefix p s = true ↔ ∃ t, s = p +:+ t.
Proof.
  revert s. induction p as [|a p IH]; intros s; simpl.
  - destruct s; simpl; split; eauto.
  - destruct s as [|b s]; simpl.
    + split; [done | intros [t Ht]; done].
    + setoid_rewrite append_cons.
      destruct (Ascii.ascii_dec a b) as [->|Hne].
      * rewrite IH. split; intros [t Ht]; exists t; congruence.
      * split; [done | intros [t Ht]; congruence].
Qed.

Lemma strstr_unfold (hay needle : string) :
  strstr hay needle =
  if String.prefix needle hay then Some hay
  else if hay is String _ rest then strstr rest needle else None.
Proof. by destruct hay. Qed.

Lemma strstr_None (hay needle : string) :
  strstr hay needle = None ↔ ¬ occurs_in needle hay.
Proof.
  induction hay as [|a hay IH]; rewrite strstr_unfold.
  - destruct (String.prefix needle "") eqn:Hp.
    + split; [done | intros Hno]. destruct Hno.
      apply prefix_app in Hp as [t Ht]. by exists "", t.
    + split; [intros _ | done]. intros (pre & post & Heq).
      destruct pre; [|by rewrite append_cons in Heq].
      rewrite append_nil in Heq.
      assert (String.prefix needle "" = true) as Hp'
        by (apply prefix_app; eauto).
      congruence.
  - destruct (String.prefix needle (String a hay)) eqn:Hp.
    + split; [done | intros Hno]. destruct Hno.
      apply prefix_app in Hp as [t Ht]. by exists "", t.
    + rewrite IH. split; intros Hno (pre & post & Heq); apply Hno.
      * destruct pre as [|b pre].
        -- rewrite append_nil in Heq.
           assert (String.prefix needle (String a hay) = true) as Hp'
             by (apply prefix_app; eauto).
           congruence.
        -- rewrite append_cons in Heq. exists pre, post. congruence.
      * exists (String a pre), post. rewrite append_cons. congruence.
Qed.

Lemma strstr_Some (hay needle : string) :
  occurs_in needle hay → is_Some (strstr hay needle).
Proof.
  intros Hocc. destruct (strstr hay needle) eqn:Hs; [by eexists|].
  by apply strstr_None in Hs.
Qed.

Lemma os_dlopen_calls dlopen dlerror (path : string) :
  let name := if dstr_find path ".so" is None then path +:+ ".so" else path in
  (os_dlopen dlopen dlerror (Some path)).1 = dlopen name RTLD_LAZY
  ∧ loads (os_dlopen dlopen dlerror (Some path)).2 = [name].
Proof.
  unfold os_dlopen, dstr_init_copy, dstr_cat. simpl.
  split; [done|]. by destruct (dlopen _ _).
Qed.

(** C10: [os_dlopen(NULL)] returns NULL and does not call the loader.  A path
    in which ".so" occurs nowhere is handed to the loader, once, with ".so"
    appended; a path in which ".so" occurs somewhere is handed to the loader,
    once, as it is.  In both cases the loader's answer is returned. *)
Theorem os_dlopen_so_suffix dlopen dlerror :
  os_dlopen dlopen dlerror None = (None, [])
  ∧ (∀ path : string, ¬ occurs_in ".so" path →
       (os_dlopen dlopen dlerror (Some path)).1 = dlopen (path +:+ ".so") RTLD_LAZY
       ∧ loads (os_dlopen dlopen dlerror (Some path)).2 = [path +:+ ".so"])
  ∧ (∀ path : string, occurs_in ".so" path →
       (os_dlopen dlopen dlerror (Some path)).1 = dlopen path RTLD_LAZY
       ∧ loads (os_dlopen dlopen dlerror (Some path)).2 = [path]).
Proof.
  split; [done|]. split; intros path Hocc.
  - pose proof (os_dlopen_calls dlopen dlerror path) as Hc.
    apply strstr_None in Hocc. unfold dstr_find in Hc. by rewrite Hocc in Hc.
  - pose proof (os_dlopen_calls dlopen dlerror path) as Hc.
    apply strstr_Some in Hocc as [t Ht]. unfold dstr_find in Hc.
    by rewrite Ht in Hc.
Qed.

Lemma os_dlopen_so_suffix_witness :
  (¬ occurs_in ".so" "libobs-opengl"
   ∧ loads (os_dlopen (one_library "libobs-opengl.so") "" (Some "libobs-opengl")).2
     = ["libobs-opengl" +:+ ".so"])
  ∧ (occurs_in ".so" "libfoo.so.1"
     ∧ loads (os_dlopen (one_library "libobs-opengl.so") "" (Some "libfoo.so.1")).2
       = ["libfoo.so.1"]).
Proof.
  destruct (os_dlopen_so_suffix (one_library "libobs-opengl.so") "")
    as (_ & Hadd & Hkeep).
  split; split.
  - apply strstr_None. reflexivity.
  - apply Hadd, strstr_None. reflexivity.
  - by exists "libfoo", ".1".
  - apply Hkeep. by exists "libfoo", ".1".
Defined.

End DlopenProps.

Module CopyFileProps.
Import CopyFile.

Lemma data_size_pos : (0 < data_size)%nat.
Proof. unfold data_size. lia. Qed.

#[local] Opaque data_size.

Lemma bytes_read_app (tr1 tr2 : list call) :
  bytes_read (tr1 ++ tr2) = bytes_read tr1 ++ bytes_read tr2.
Proof. unfold bytes_read. by rewrite omap_app, concat_app. Qed.

Lemma fread_length fault n f :
  (i_pos f ≤ length (i_content f))%nat →
  (length (fread fault n f).1 ≤ n
   ∧ i_pos f + length (fread fault n f).1 ≤ length (i_content f))%nat.
Proof.
  intros Hpos. unfold fread. simpl. rewrite length_take, length_drop.
  destruct fault; lia.
Qed.

Lemma fread_content fault n f : i_content (fread fault n f).2 = i_content f.
Proof. reflexivity. Qed.

Lemma fread_pos fault n f :
  i_pos (fread fault n f).2 = (i_pos f + length (fread fault n f).1)%nat.
Proof. reflexivity. Qed.

Lemma fread_reading fault n f tr :
  reading f tr →
  reading (fread fault n f).2 (tr ++ [c_fread (fread fault n f).1])
  ∧ i_content (fread fault n f).2 = i_content f
  ∧ i_pos (fread fault n f).2 = (i_pos f + length (fread fault n f).1)%nat.
Proof.
  intros (Hpos & Hread & Heof).
  pose proof (fread_length fault n f Hpos) as [Hle Hin].
  split; [|done]. split; [exact Hin|]. split.
  - rewrite bytes_read_app, Hread. unfold bytes_read at 1. simpl.
    rewrite app_nil_r, length_take, length_drop.
    rewrite take_take_drop. f_equal. destruct fault; lia.
  - revert Hle Hin. unfold fread. simpl.
    rewrite length_take, length_drop. intros Hle Hin Hset.
    apply orb_true_iff in Hset as [Hset|Hset]; [apply Heof in Hset; lia|].
    apply andb_true_iff in Hset as [Hshort Hend].
    apply bool_decide_eq_true in Hshort.
    apply negb_true_iff, bool_decide_eq_false in Hend.
    destruct fault; lia.
Qed.

Lemma copy_loop_unfold fault fuel f o tr :
  copy_loop fault (S fuel) f o tr =
  let data := (fread fault data_size f).1 in
  let f1 := (fread fault data_size f).2 in
  let tr1 := tr ++ [c_fread data] in
  if decide (length data = 0%nat) then
    if decide (length data = data_size)
    then copy_loop fault fuel f1 o tr1 else Some (f1, o, tr1)
  else
    let size := (fwrite data o).1 in
    let o1 := (fwrite data o).2 in
    let tr2 := tr1 ++ [c_fwrite data size] in
    if decide (size = data_size)
    then copy_loop fault fuel f1 o1 tr2 else Some (f1, o1, tr2).
Proof.
  cbn [copy_loop]. destruct (fread fault data_size f) as [data f1].
  cbn [fst snd]. destruct (decide (length data = 0%nat)); [done|].
  by destruct (fwrite data o).
Qed.

Lemma fwrite_le data o : ((fwrite data o).1 ≤ length data)%nat.
Proof. unfold fwrite. simpl. rewrite length_take. lia. Qed.

Lemma copy_loop_reading fault fuel f o tr f' o' tr' :
  copy_loop fault fuel f o tr = Some (f', o', tr') →
  reading f tr →
  reading f' tr' ∧ i_content f' = i_content f.
Proof.
  revert f o tr. induction fuel as [|fuel IH]; intros f o tr; [done|].
  rewrite copy_loop_unfold. cbv zeta. intros Hloop Hinv.
  pose proof (fread_reading fault data_size f tr Hinv) as (Hinv1 & Hc1 & _).
  pose proof data_size_pos.
  destruct (decide (length _ = 0%nat)) as [Hz|Hnz].
  - destruct (decide (length _ = data_size)); [lia|]. by simplify_eq.
  - set (data := (fread fault data_size f).1) in *.
    set (f1 := (fread fault data_size f).2) in *.
    assert (reading f1 ((tr ++ [c_fread data])
                          ++ [c_fwrite data (fwrite data o).1])) as Hinv2.
    { destruct Hinv1 as (? & Hb & ?). split_and!; [done| |done].
      by rewrite bytes_read_app, Hb, app_nil_r. }
    destruct (decide (_ = data_size)).
    + apply IH in Hloop as [? ?]; [|done]. split; [done|congruence].
    + by simplify_eq.
Qed.

(** The loop ends: one unit of fuel per byte left in the file, and one
    more, is enough. *)
Lemma copy_loop_ends fault fuel f o tr :
  (i_pos f ≤ length (i_content f))%nat →
  (length (i_content f) - i_pos f < fuel)%nat →
  is_Some (copy_loop fault fuel f o tr).
Proof.
  revert f o tr. induction fuel as [|fuel IH]; intros f o tr Hpos Hfuel; [lia|].
  rewrite copy_loop_unfold. cbv zeta.
  pose proof (fread_length fault data_size f Hpos) as [Hle Hin].
  pose proof data_size_pos.
  destruct (decide (length _ = 0%nat)) as [Hz|Hnz].
  - destruct (decide (length _ = data_size)); [lia|by eexists].
  - pose proof (fwrite_le (fread fault data_size f).1 o).
    destruct (decide (_ = data_size)) as [Hfull|]; [|by eexists].
    apply IH; rewrite fread_content, fread_pos; lia.
Qed.

Lemma fopen_rb_Some e (fs : files) path f :
  fopen_rb e fs path = Some f →
  fs !! path = Some (i_content f) ∧ i_pos f = 0%nat ∧ i_eof f = false.
Proof.
  unfold fopen_rb. destruct (may_read e path); [|done].
  destruct (fs !! path); [|done]. by intros [= <-].
Qed.

(** [os_copyfile] always returns. *)
Lemma os_copyfile_returns e fs file_path_in file_path_out :
  is_Some (os_copyfile e fs file_path_in file_path_out).
Proof.
  unfold os_copyfile.
  destruct (os_file_exists fs file_path_out); [by eexists|].
  destruct (fopen_rb e fs file_path_in) as [file_in|] eqn:Hin; [|by eexists].
  destruct (fopen_ab e file_path_out []) as [file_out|]; [|by eexists].
  apply fopen_rb_Some in Hin as (_ & Hpos & _).
  edestruct (copy_loop_ends (read_fault e) (S (length (i_content file_in)))
               file_in file_out) as [[[f o] tr] ->]; [lia..|]. 
  by eexists.
Qed.

(** An existing destination keeps its content, whatever the outcome. *)
Lemma os_copyfile_keeps_destination e (fs fs' : files) file_path_in file_path_out
    old ret tr :
  fs !! file_path_out = Some old →
  os_copyfile e fs file_path_in file_path_out = Some (ret, fs', tr) →
  fs' !! file_path_out = Some old.
Proof.
  intros Hold. unfold os_copyfile, os_file_exists.
  rewrite bool_decide_eq_true_2 by (by eexists). by intros [= <- <- <-].
Qed.

(** C9: when the destination exists, [os_copyfile] returns -1 after the
    existence test alone: no [fopen], no [fread], no [fwrite], and the file
    system is left as it was.  When it returns 0, the input file exists, the
    destination did not exist before, and the [fread] calls delivered the
    whole content of the input file. *)
Theorem os_copyfile_no_overwrite e (fs : files) file_path_in file_path_out :
  (is_Some (fs !! file_path_out) →
     os_copyfile e fs file_path_in file_path_out
     = Some ((-1)%Z, fs, [c_access file_path_out]))
  ∧ (∀ fs' tr,
       os_copyfile e fs file_path_in file_path_out = Some (0%Z, fs', tr) →
       fs !! file_path_out = None
       ∧ ∃ content, fs !! file_path_in = Some content ∧ bytes_read tr = content).
Proof.
  unfold os_copyfile, os_file_exists. split.
  - intros Hex. by rewrite bool_decide_eq_true_2.
  - intros fs' tr. case_bool_decide as Hex; [done|].
    apply eq_None_not_Some in Hex.
    destruct (fopen_rb e fs file_path_in) as [file_in|] eqn:Hin; [|done].
    destruct (fopen_ab e file_path_out []) as [file_out|]; [|done].
    apply fopen_rb_Some in Hin as (Hcontent & Hpos0 & Heof0).
    destruct (copy_loop _ _ file_in _ _) as [[[f o] tr1]|] eqn:Hloop; [|done].
    cbn [mbind option_bind]. intros Hret. split; [done|].
    exists (i_content file_in). split; [done|].
    apply copy_loop_reading in Hloop as [(Hpos & Hread & Heof) Hc].
    + destruct (i_eof f); [|done]. simplify_eq.
      rewrite bytes_read_app, Hread, app_nil_r, Heof, Hc by done.
      by rewrite take_ge.
    + split_and!; [lia| by rewrite Hpos0 | by rewrite Heof0].
Qed.

(** The destination "b" exists: nothing is opened.  The three-byte file "a"
    is copied to the fresh "c" in one short read. *)
Lemma os_copyfile_no_overwrite_witness :
  let abc := [Byte.x61; Byte.x62; Byte.x63] in
  let fs : files := {[ "a" := abc; "b" := [] ]} in
  let tr := [c_access "c"; c_fopen "a" "rb"; c_fopen "c" "ab+";
             c_fread abc; c_fwrite abc 3; c_feof; c_fclose "c"; c_fclose "a"] in
  (is_Some (fs !! "b")
   ∧ os_copyfile (calm 100) fs "a" "b" = Some ((-1)%Z, fs, [c_access "b"]))
  ∧ (os_copyfile (calm 100) fs "a" "c" = Some (0%Z, <["c" := abc]> fs, tr)
     ∧ fs !! "c" = None
     ∧ ∃ content, fs !! "a" = Some content ∧ bytes_read tr = content).
Proof.
  intros abc fs tr.
  assert (is_Some (fs !! "b")) as Hb by (by eexists).
  assert (os_copyfile (calm 100) fs "a" "c" = Some (0%Z, <["c" := abc]> fs, tr))
    as Hc by (vm_compute; reflexivity).
  split; split; [exact Hb| |exact Hc|].
  - exact (proj1 (os_copyfile_no_overwrite (calm 100) fs "a" "b") Hb).
  - exact (proj2 (os_copyfile_no_overwrite (calm 100) fs "a" "c") _ _ Hc).
Defined.

(** A file of one buffer and four bytes goes through in two turns. *)
Example copy_two_turns :
  let content := replicate 4100 Byte.x61 in
  os_copyfile (calm 4500) {[ "in" := content ]} "in" "out"
  = Some (0%Z, <["out" := content]> {[ "in" := content ]},
          [c_access "out"; c_fopen "in" "rb"; c_fopen "out" "ab+";
           c_fread (replicate 4096 Byte.x61);
           c_fwrite (replicate 4096 Byte.x61) 4096;
           c_fread (replicate 4 Byte.x61);
           c_fwrite (replicate 4 Byte.x61) 4;
           c_feof; c_fclose "out"; c_fclose "in"]).
Proof. vm_compute. reflexivity. Qed.

(** A file of exactly one buffer: the second [fread] delivers nothing and
    sets the end-of-file indicator. *)
Example copy_one_buffer :
  let content := replicate 4096 Byte.x61 in
  os_copyfile (calm 4500) {[ "in" := content ]} "in" "out"
  = Some (0%Z, <["out" := content]> {[ "in" := content ]},
          [c_access "out"; c_fopen "in" "rb"; c_fopen "out" "ab+";
           c_fread content; c_fwrite content 4096; c_fread [];
           c_feof; c_fclose "out"; c_fclose "in"]).
Proof. vm_compute. reflexivity. Qed.

(** The device fails after two bytes: -1, with the two bytes written. *)
Example copy_read_fault :
  let e := {| may_read := λ _, true; may_create := λ _, true;
              read_fault := Some 2%nat; write_room := 100 |} in
  let abc := [Byte.x61; Byte.x62; Byte.x63] in
  os_copyfile e {[ "in" := abc ]} "in" "out"
  = Some ((-1)%Z, <["out" := [Byte.x61; Byte.x62]]> {[ "in" := abc ]},
          [c_access "out"; c_fopen "in" "rb"; c_fopen "out" "ab+";
           c_fread [Byte.x61; Byte.x62]; c_fwrite [Byte.x61; Byte.x62] 2;
           c_feof; c_fclose "out"; c_fclose "in"]).
Proof. vm_compute. reflexivity. Qed.

(** The return value speaks of the input only: with room for one byte the
    last write comes up short and the result is still 0. *)
Example copy_short_write :
  let abc := [Byte.x61; Byte.x62; Byte.x63] in
  os_copyfile (calm 1) {[ "in" := abc ]} "in" "out"
  = Some (0%Z, <["out" := [Byte.x61]]> {[ "in" := abc ]},
          [c_access "out"; c_fopen "in" "rb"; c_fopen "out" "ab+";
           c_fread abc; c_fwrite abc 1;
           c_feof; c_fclose "out"; c_fclose "in"]).
Proof. vm_compute. reflexivity. Qed.

(** An empty file: the first [fread] delivers nothing, nothing is written,
    and the empty destination exists afterwards. *)
Example copy_empty :
  os_copyfile (calm 100) {[ "in" := [] ]} "in" "out"
  = Some (0%Z, <["out" := []]> {[ "in" := [] ]},
          [c_access "out"; c_fopen "in" "rb"; c_fopen "out" "ab+";
           c_fread []; c_feof; c_fclose "out"; c_fclose "in"]).
Proof. vm_compute. reflexivity. Qed.

(** No input file: -1, and no destination is made. *)
Example copy_no_input :
  os_copyfile (calm 100) ∅ "in" "out"
  = Some ((-1)%Z, ∅, [c_access "out"; c_fopen "in" "rb"]).
Proof. vm_compute. reflexivity. Qed.

End CopyFileProps.

Module InhibitProps.
Import Inhibit.

#[local] Open Scope Z_scope.

(** Lists equal up to the bracketing of [++] and [::]; the same
    configuration with its history bracketed differently. *)
Ltac list_assoc :=
  repeat first [rewrite <-app_assoc | rewrite <-app_comm_cons];
  rewrite ?app_nil_r; done.

Ltac same_config H := eapply (eq_ind _ phase H); f_equal; list_assoc.


(** create, start, stop, destroy, with a bus session and threads that
    start. *)
Example session_start_stop :
  session_run (Some dbus_session) true "recording"
    [op_set_active true 0; op_set_active false 0; op_destroy]
  = (None,
     {| watchdog := false; fault := false;
        trace := [c_dbus_sleep_info_create; c_os_event_init OS_EVENT_TYPE_AUTO;
                  c_posix_spawnattr_init; c_bstrdup "recording";
                  c_dbus_inhibit_sleep "recording" true; c_pthread_create 0;
                  c_dbus_inhibit_sleep "recording" false; c_os_event_signal;
                  c_pthread_join;
                  c_dbus_sleep_info_destroy (Some dbus_session);
                  c_os_event_destroy; c_posix_spawnattr_destroy;
                  c_bfree "reason"; c_bfree "info"] |}).
Proof. reflexivity. Qed.

(** A thread creation that fails with EAGAIN goes unnoticed, and the next
    [set_active (h, false)] joins a thread that was never created. *)
Example session_join_without_thread :
  let s := session_run None true "recording"
             [op_set_active true EAGAIN; op_set_active false 0] in
  is_active s.1 = false ∧ watchdog s.2 = false ∧ fault s.2 = true
  ∧ trace s.2 = [c_dbus_sleep_info_create; c_os_event_init OS_EVENT_TYPE_AUTO;
                 c_posix_spawnattr_init; c_bstrdup "recording";
                 c_pthread_create EAGAIN; c_os_event_signal; c_pthread_join].
Proof. by vm_compute. Qed.

(** A fresh handle is inactive, whatever the bus and the event primitive
    answered. *)
Lemma create_inactive session event_ok reason w :
  active (os_inhibit_sleep_create session event_ok reason w).1 = false.
Proof. reflexivity. Qed.

Lemma create_stop_event session reason w :
  is_Some (stop_event (os_inhibit_sleep_create session true reason w).1).
Proof. by eexists. Qed.

(** The guard of [os_inhibit_sleep_set_active]. *)
Lemma set_active_same create_ret (i : os_inhibit_info) w :
  os_inhibit_sleep_set_active create_ret (Some i) (active i) w = (false, Some i, w).
Proof. unfold os_inhibit_sleep_set_active. by rewrite bool_decide_eq_true_2. Qed.

Lemma set_active_change create_ret (i : os_inhibit_info) act w :
  active i ≠ act →
  os_inhibit_sleep_set_active create_ret (Some i) act w =
  let w := bus_call i act w in
  if stop_event i is None then (true, Some i, w)
  else if act then
    if (create_ret <? 0) then
      (false, Some i,
       emit (c_blog LOG_ERROR "Failed to create screensaver inhibitor thread" [])
         (pthread_create create_ret w))
    else (true, Some (with_active i act), pthread_create create_ret w)
  else (true, Some (with_active i act), pthread_join (os_event_signal w)).
Proof.
  intros Hne. unfold os_inhibit_sleep_set_active, bus_call.
  by rewrite bool_decide_eq_false_2.
Qed.

(** Stopping does not create a thread: what [pthread_create] would answer
    plays no part. *)
Lemma set_active_false_create_ret r1 r2 info w :
  os_inhibit_sleep_set_active r1 info false w
  = os_inhibit_sleep_set_active r2 info false w.
Proof.
  destruct info as [i|]; [|done]. destruct (decide (active i = false)) as [He|Hne].
  - unfold os_inhibit_sleep_set_active. by rewrite !bool_decide_eq_true_2.
  - by rewrite !set_active_change.
Qed.

(** Without a stop event a change of state is answered with true, and the
    flag stays as it was. *)
Lemma set_active_no_event create_ret (i : os_inhibit_info) act w :
  active i ≠ act → stop_event i = None →
  os_inhibit_sleep_set_active create_ret (Some i) act w
  = (true, Some i, bus_call i act w).
Proof. intros Hne Hev. rewrite set_active_change by done. cbv zeta. by rewrite Hev. Qed.

Lemma watchdog_bus_call i act w : watchdog (bus_call i act w) = watchdog w.
Proof. unfold bus_call. by destruct (dbus i). Qed.

Lemma fault_bus_call i act w : fault (bus_call i act w) = fault w.
Proof. unfold bus_call. by destruct (dbus i). Qed.

(** A negative answer of [pthread_create] is reported: the call returns
    false, logs, and leaves the handle as it was. *)
Lemma set_active_negative_create create_ret (i : os_inhibit_info) w :
  active i = false → is_Some (stop_event i) → create_ret < 0 →
  ∃ w', os_inhibit_sleep_set_active create_ret (Some i) true w = (false, Some i, w')
        ∧ watchdog w' = watchdog w.
Proof.
  intros Hact [ev Hev] Hneg. rewrite set_active_change by (by rewrite Hact).
  cbv zeta. rewrite Hev. apply Z.ltb_lt in Hneg as Hltb. rewrite Hltb.
  eexists. split; [done|]. simpl. rewrite watchdog_bus_call.
  destruct create_ret; try lia. by rewrite orb_false_r.
Qed.

(** An error number, as [pthread_create] does return on failure, is not:
    the call returns true and sets the flag, with no thread started. *)
Lemma set_active_positive_create create_ret (i : os_inhibit_info) w :
  active i = false → is_Some (stop_event i) → 0 < create_ret →
  ∃ w', os_inhibit_sleep_set_active create_ret (Some i) true w
        = (true, Some (with_active i true), w')
        ∧ watchdog w' = watchdog w.
Proof.
  intros Hact [ev Hev] Hpos. rewrite set_active_change by (by rewrite Hact).
  cbv zeta. rewrite Hev.
  assert ((create_ret <? 0) = false) as -> by (apply Z.ltb_ge; lia).
  eexists. split; [done|]. simpl. rewrite watchdog_bus_call.
  destruct create_ret; try lia. by rewrite orb_false_r.
Qed.

(** C1: thread creation fails with EAGAIN on a fresh handle (inactive, with
    its stop event, no bus session): the call returns true and the handle is
    marked active, while no watchdog runs. *)
Theorem set_active_create_failure_unreported :
  let i := (os_inhibit_sleep_create None true "recording" idle).1 in
  let w := (os_inhibit_sleep_create None true "recording" idle).2 in
  active i = false
  ∧ os_inhibit_sleep_set_active EAGAIN (Some i) true w
    = (true, Some (with_active i true), emit (c_pthread_create EAGAIN) w)
  ∧ watchdog (emit (c_pthread_create EAGAIN) w) = false.
Proof. by vm_compute. Qed.

Lemma destroy_stops (i : os_inhibit_info) w :
  watchdog w = active i → fault w = false → is_Some (stop_event i) →
  watchdog (os_inhibit_sleep_destroy (Some i) w) = false
  ∧ fault (os_inhibit_sleep_destroy (Some i) w) = false.
Proof.
  intros Hwd Hfault [ev Hev]. unfold os_inhibit_sleep_destroy.
  destruct (active i) eqn:Hact.
  - rewrite set_active_change by (by rewrite Hact). cbv zeta. rewrite Hev.
    simpl. by rewrite fault_bus_call, watchdog_bus_call, Hfault, Hwd.
  - pose proof (set_active_same 0 i w) as Hs. rewrite Hact in Hs.
    rewrite Hs. by simpl.
Qed.

Lemma apply_op_in_step o s : reported o → in_step s → in_step (apply_op o s).
Proof.
  destruct s as [[i|] w]; intros Hrep (Hwd & Hfault & Hev); simpl in *.
  - destruct (Hev i eq_refl) as [ev Hi].
    assert (∀ act create_ret, create_ret ≤ 0 →
              in_step (let '(_, info, w') :=
                         os_inhibit_sleep_set_active create_ret (Some i) act w
                       in (info, w'))) as Hset.
    { intros act create_ret Hle.
      destruct (decide (active i = act)) as [<-|Hne].
      - rewrite set_active_same. split_and!; naive_solver.
      - rewrite set_active_change by done. cbv zeta. rewrite Hi.
        destruct act.
        + apply not_true_is_false in Hne.
          destruct (create_ret <? 0) eqn:Hlt; split_and!; simpl;
            rewrite ?watchdog_bus_call, ?fault_bus_call, ?Hwd, ?Hne; try done.
          * apply Z.ltb_lt in Hlt. by destruct create_ret; try lia.
          * apply Z.ltb_ge in Hlt. by replace create_ret with 0 by lia.
          * naive_solver.
        + apply not_false_is_true in Hne.
          split_and!; simpl;
            rewrite ?watchdog_bus_call, ?fault_bus_call, ?Hwd, ?Hfault, ?Hne;
            naive_solver. }
    destruct o as [act create_ret|]; simpl.
    + by apply Hset.
    + edestruct (destroy_stops i w) as [Hwd' Hfault']; [done..|by eexists|].
      split_and!; done.
  - destruct o as [act create_ret|]; simpl; split_and!; done.
Qed.

Lemma run_ops_in_step ops s : Forall reported ops → in_step s → in_step (run_ops ops s).
Proof.
  intros Hrep. revert s. induction Hrep as [|o ops Ho _ IH]; intros s Hs; [done|].
  apply IH. by apply apply_op_in_step.
Qed.

(** With every thread creation either succeeding or answering a negative
    number, the watchdog runs exactly when the handle is active, and nothing
    undefined happens. *)
Lemma session_in_step session reason ops :
  Forall reported ops →
  watchdog (session_run session true reason ops).2
  = is_active (session_run session true reason ops).1
  ∧ fault (session_run session true reason ops).2 = false.
Proof.
  intros Hrep. unfold session_run. simpl.
  edestruct (run_ops_in_step ops) as (Hwd & Hfault & _); [done| |by split].
  split_and!; [done..|]. intros i [= <-]. by eexists.
Qed.

(** C2: a handle is created with its stop event, and [set_active (h, true)]
    meets a thread creation failing with EAGAIN: afterwards the handle is
    active and no watchdog runs. *)
Theorem active_without_watchdog :
  let s := session_run None true "recording" [op_set_active true EAGAIN] in
  is_active s.1 = true ∧ watchdog s.2 = false.
Proof. by vm_compute. Qed.

(** C3: asked for the state the handle is already in, the call returns
    false, the handle is as before and so is the world: the trace has no new
    call (no bus call, no [pthread_create], no [pthread_join]) and the
    watchdog is as it was. *)
Theorem set_active_idempotent create_ret (i : os_inhibit_info) (v : bool) w :
  v = active i →
  os_inhibit_sleep_set_active create_ret (Some i) v w = (false, Some i, w).
Proof. intros ->. apply set_active_same. Qed.

Lemma set_active_idempotent_witness :
  let i := with_active
             (os_inhibit_sleep_create (Some dbus_session) true "recording" idle).1
             true in
  true = active i
  ∧ os_inhibit_sleep_set_active 0 (Some i) true running = (false, Some i, running).
Proof. intros i. split; [reflexivity|]. apply set_active_idempotent. reflexivity. Defined.

(** With a stop event, a call that returns true has set the flag. *)
Lemma set_active_true_sets_flag create_ret (i : os_inhibit_info) v w r i' w' :
  is_Some (stop_event i) →
  os_inhibit_sleep_set_active create_ret (Some i) v w = (r, i', w') →
  r = true → active <$> i' = Some v.
Proof.
  intros [ev Hev] Hs ->. destruct (decide (active i = v)) as [<-|Hne].
  - by rewrite set_active_same in Hs.
  - rewrite set_active_change in Hs by done. cbv zeta in Hs. rewrite Hev in Hs.
    destruct v; [destruct (create_ret <? 0)|]; by simplify_eq.
Qed.

(** C4: the event primitive could not make the stop event, the bus session
    exists.  [set_active (h, true)] asks the bus to inhibit and returns true,
    yet the handle is left inactive; asked again it does the same again; and
    [set_active (h, false)] then returns false without any bus call. *)
Theorem set_active_true_without_flag :
  let i := (os_inhibit_sleep_create (Some dbus_session) false "recording" idle).1 in
  let inhibit := c_dbus_inhibit_sleep "recording" true in
  stop_event i = None ∧ active i = false
  ∧ os_inhibit_sleep_set_active 0 (Some i) true idle
    = (true, Some i, emit inhibit idle)
  ∧ os_inhibit_sleep_set_active 0 (Some i) true (emit inhibit idle)
    = (true, Some i, emit inhibit (emit inhibit idle))
  ∧ os_inhibit_sleep_set_active 0 (Some i) false (emit inhibit idle)
    = (false, Some i, emit inhibit idle).
Proof. by vm_compute. Qed.

(** C7: no bus session, a stop event, the handle inactive, and thread
    creation succeeding: the call returns true, the handle is active, the
    watchdog runs, and [pthread_create] is the only call made. *)
Theorem set_active_without_bus (i : os_inhibit_info) w :
  active i = false → dbus i = None → is_Some (stop_event i) →
  os_inhibit_sleep_set_active 0 (Some i) true w
  = (true, Some (with_active i true), pthread_create 0 w)
  ∧ watchdog (pthread_create 0 w) = true
  ∧ trace (pthread_create 0 w) = trace w ++ [c_pthread_create 0].
Proof.
  intros Hact Hbus [ev Hev]. rewrite set_active_change by (by rewrite Hact).
  unfold bus_call. rewrite Hbus, Hev. simpl. by rewrite orb_true_r.
Qed.

Lemma set_active_without_bus_witness :
  let i := (os_inhibit_sleep_create None true "recording" idle).1 in
  os_inhibit_sleep_set_active 0 (Some i) true idle
  = (true, Some (with_active i true), pthread_create 0 idle)
  ∧ watchdog (pthread_create 0 idle) = true
  ∧ trace (pthread_create 0 idle) = trace idle ++ [c_pthread_create 0].
Proof.
  intros i. apply (set_active_without_bus i idle);
    [reflexivity | reflexivity | by eexists].
Defined.

(** C8: on a NULL handle [set_active] returns false and [destroy] returns,
    both leaving the world as it was: no call made, no thread touched,
    nothing undefined. *)
Theorem null_handle_noop create_ret (v : bool) w :
  os_inhibit_sleep_set_active create_ret None v w = (false, None, w)
  ∧ os_inhibit_sleep_destroy None w = w.
Proof. done. Qed.

(** *** The watchdog loop *)









(** *** Stopping: the caller and the watchdog *)

Lemma quiet_watchdog tr : quiet (by_watchdog <$> tr).
Proof. unfold quiet. apply Forall_fmap. by apply Forall_true. Qed.

Lemma thread_turn_timeout info r st tr :
  wait_ret r = os_event_timedwait false →
  screensaver_thread info [r] = (st, tr) → st ≠ Exited.
Proof.
  simpl. intros ->. rewrite Z.eqb_refl.
  destruct (reset_screensaver info r) as [[] tr']; by intros [= <- <-].
Qed.

Lemma thread_turn_signalled info r st tr :
  wait_ret r = os_event_timedwait true →
  screensaver_thread info [r] = (st, tr) → st = Exited.
Proof. simpl. intros ->. by intros [= <- <-]. Qed.

Lemma quiet_snoc h o : quiet h → releases o = false → quiet (h ++ [o]).
Proof. intros Hh Ho. apply Forall_app. split; [done|]. by constructor. Qed.

Lemma quiet_turn h st tr :
  quiet h →
  quiet (h ++ (by_watchdog <$> tr)
           ++ (if decide (st = Exited) then [watchdog_exit] else [])).
Proof.
  intros Hh. apply Forall_app. split; [done|]. apply Forall_app.
  split; [apply quiet_watchdog|]. destruct (decide _); by repeat constructor.
Qed.

Lemma step_before info pre post st h cf' :
  Forall early pre → no_join post → st ≠ Exited → quiet h →
  step info {| pending := pre ++ c_os_event_signal :: c_pthread_join :: post;
               wd := st; signalled := false; hist := h |} cf' →
  phase cf'.
Proof.
  intros Hpre Hpost Hst Hh Hstep.
  inversion Hstep as [c rest st' s' h' Hc Heq
                     |rest s' h' Heq
                     |p s' h' r st' tr Hw Hrun Heq]; subst.
  - destruct pre as [|c0 pre]; simplify_eq/=.
    + apply (ph_signalled post st _ h []); [done..|]. by rewrite !app_nil_r.
    + apply Forall_cons in Hpre as [(_ & Hsig & Hrel) Hpre].
      rewrite bool_decide_eq_false_2 by done.
      apply ph_before; [done..|]. by apply quiet_snoc.
  - done.
  - pose proof (thread_turn_timeout _ _ _ _ Hw Hrun) as Hst'.
    apply ph_before; [done..|]. by apply quiet_turn.
Qed.

Lemma step_signalled info post st s h1 h2 cf' :
  no_join post → st ≠ Exited → quiet (h1 ++ h2) →
  step info {| pending := c_pthread_join :: post; wd := st; signalled := s;
               hist := h1 ++ by_caller c_os_event_signal :: h2 |} cf' →
  phase cf'.
Proof.
  intros Hpost Hst Hh Hstep.
  inversion Hstep as [c rest st' s' h' Hc Heq
                     |rest s' h' Heq
                     |p s' h' r st' tr Hw Hrun Heq]; subst; [done..|].
  assert (quiet (h1 ++ h2 ++ (by_watchdog <$> tr))) as Hh'.
  { rewrite app_assoc. apply Forall_app. split; [done|apply quiet_watchdog]. }
  destruct (decide (st' = Exited)) as [->|Hst'].
  - assert (quiet (h1 ++ (h2 ++ (by_watchdog <$> tr)) ++ [])) as Hq
      by (by rewrite app_nil_r).
    pose proof (ph_exited post false h1 (h2 ++ (by_watchdog <$> tr)) []
                  Hpost Hq) as Hph.
    same_config Hph.
  - pose proof (ph_signalled post st' false h1 (h2 ++ (by_watchdog <$> tr))
                  Hpost Hst' Hh') as Hph.
    same_config Hph.
Qed.

Lemma step_exited info post s h1 h2 h3 cf' :
  no_join post → quiet (h1 ++ h2 ++ h3) →
  step info {| pending := c_pthread_join :: post; wd := Exited; signalled := s;
               hist := h1 ++ by_caller c_os_event_signal :: h2
                         ++ watchdog_exit :: h3 |} cf' →
  phase cf'.
Proof.
  intros Hpost Hh Hstep.
  inversion Hstep as [c rest st' s' h' Hc Heq
                     |rest s' h' Heq
                     |p s' h' r st' tr Hw Hrun Heq]; subst; [done|].
  apply ph_joined; [done|]. exists h1, h2, h3, []. split; [|done].
  list_assoc.
Qed.

Lemma step_joined info post s h cf' :
  no_join post → joined_in_order h →
  step info {| pending := post; wd := Exited; signalled := s; hist := h |} cf' →
  phase cf'.
Proof.
  intros Hpost (h1 & h2 & h3 & h4 & -> & Hh) Hstep.
  inversion Hstep as [c rest st' s' h' Hc Heq
                     |rest s' h' Heq
                     |p s' h' r st' tr Hw Hrun Heq]; subst.
  - apply Forall_cons in Hpost as [_ Hpost].
    apply ph_joined; [done|]. exists h1, h2, h3, (h4 ++ [by_caller c]).
    split; [|done]. list_assoc.
  - by apply Forall_cons in Hpost as [? _].
Qed.

Lemma step_phase info cf cf' : step info cf cf' → phase cf → phase cf'.
Proof.
  intros Hstep Hph. destruct Hph.
  - by eapply step_before.
  - by eapply step_signalled.
  - by eapply step_exited.
  - by eapply step_joined.
Qed.

Lemma rtc_step_phase info cf cf' : rtc (step info) cf cf' → phase cf → phase cf'.
Proof. induction 1; eauto using step_phase. Qed.

(** The calls of a stopping function on an active handle with a stop event:
    the bus call if there is a session, the signal, the join, and, in
    [destroy], the releases. *)
Lemma calls_of_stop how (i : os_inhibit_info) :
  active i = true → is_Some (stop_event i) →
  calls_of how i
  = (if dbus i is Some _ then [c_dbus_inhibit_sleep (reason i) false] else [])
    ++ c_os_event_signal :: c_pthread_join
    :: (if how is stop_destroy
        then [c_dbus_sleep_info_destroy (dbus i); c_os_event_destroy;
              c_posix_spawnattr_destroy; c_bfree "reason"; c_bfree "info"]
        else []).
Proof.
  intros Hact [ev Hev]. unfold calls_of, os_inhibit_sleep_destroy.
  rewrite set_active_change by (by rewrite Hact). cbv zeta. rewrite Hev.
  unfold bus_call. by destruct how, (dbus i).
Qed.

Lemma start_phase how (i : os_inhibit_info) st :
  active i = true → is_Some (stop_event i) → st ≠ Exited →
  phase (start how i st).
Proof.
  intros Hact Hev Hst. unfold start. rewrite calls_of_stop by done.
  apply ph_before; [| |done|by constructor].
  - destruct (dbus i); repeat constructor; done.
  - destruct how; repeat constructor; done.
Qed.

(** What stopping does when the handle has a watchdog: an active handle with
    its stop event, the event clear, the watchdog alive, and the caller in
    [set_active (h, false)] or in [destroy (h)].  However the two threads
    interleave, once the caller has made all its calls the watchdog has
    exited, and the history shows the signal, then the exit of the watchdog,
    then the return of the join, with no resource of the handle given up
    before that return.  An active handle need not have a watchdog, though:
    a thread creation that failed leaves it active all the same. *)
Lemma stop_joins_watchdog how (i : os_inhibit_info) st cf :
  active i = true → is_Some (stop_event i) → st ≠ Exited →
  rtc (step i) (start how i st) cf →
  pending cf = [] →
  wd cf = Exited ∧ joined_in_order (hist cf).
Proof.
  intros Hact Hev Hst Hrun Hend.
  pose proof (rtc_step_phase _ _ _ Hrun (start_phase how i st Hact Hev Hst))
    as Hph.
  destruct Hph as [pre ? ? ? _ _ _ _| | |post s h _ Hh]; simpl in Hend;
    [by destruct pre|done|done|done].
Qed.

(** The caller can get to the end of its calls. *)
Lemma run_calls info l rest st s h :
  no_join l →
  rtc (step info)
    {| pending := l ++ rest; wd := st; signalled := s; hist := h |}
    {| pending := rest; wd := st;
       signalled := s || bool_decide (c_os_event_signal ∈ l);
       hist := h ++ (by_caller <$> l) |}.
Proof.
  intros Hl. revert s h. induction Hl as [|c l Hc _ IH]; intros s h.
  - rewrite bool_decide_eq_false_2 by apply not_elem_of_nil.
    simpl. rewrite orb_false_r, app_nil_r. done.
  - eapply rtc_l; [by apply step_call|].
    eapply (eq_ind _ (rtc (step info) _)); [apply IH|]. f_equal.
    + rewrite <-orb_assoc. f_equal. rewrite <-bool_decide_or.
      apply bool_decide_ext. rewrite elem_of_cons.
      split; (intros [->|?]; [by left|by right]).
    + simpl. list_assoc.
Qed.

(** A stopping call on a handle whose watchdog waits can return: the caller
    signals, the wait of the watchdog finds the event set, the watchdog
    leaves its loop, and the join returns. *)
Lemma stop_can_return how (i : os_inhibit_info) :
  active i = true → is_Some (stop_event i) →
  ∃ cf, rtc (step i) (start how i Waiting) cf ∧ pending cf = [].
Proof.
  intros Hact Hev. unfold start. rewrite calls_of_stop by done.
  set (pre := if dbus i is Some _ then _ else _).
  set (post := if how is stop_destroy then _ else _).
  assert (no_join (pre ++ [c_os_event_signal])) as Hpre.
  { subst pre. destruct (dbus i); repeat constructor; done. }
  assert (no_join post) as Hpost.
  { subst post. destruct how; repeat constructor; done. }
  eexists. split.
  - etrans.
    { pose proof (run_calls i (pre ++ [c_os_event_signal])
                    (c_pthread_join :: post) Waiting false [] Hpre) as Hrun.
      rewrite <-app_assoc in Hrun. exact Hrun. }
    rewrite bool_decide_eq_true_2 by (apply elem_of_app; right; by left).
    eapply rtc_l.
    { by apply (step_watchdog i _ _ _
                  {| wait_ret := 0; spawn_ret := 0; waitpid_rets := [] |}
                  Exited [c_os_event_timedwait 30000 0]). }
    eapply rtc_l; [apply step_join|].
    rewrite <-(app_nil_r post) at 1. by apply run_calls.
  - done.
Qed.

(** [destroy] on an active handle with a bus session: the watchdog resets the
    screensaver once more, the caller releases the inhibition and signals,
    the watchdog exits, the join returns, the resources are released. *)
Lemma stop_joins_watchdog_witness :
  let i := active_handle (Some dbus_session) in
  let spawn := c_posix_spawnp "xdg-screensaver" ["xdg-screensaver"; "reset"]
                 (attr i) 0 in
  let h := [by_watchdog (c_os_event_timedwait 30000 ETIMEDOUT);
            by_watchdog spawn; by_watchdog (c_waitpid 4321);
            by_caller (c_dbus_inhibit_sleep "recording" false);
            by_caller c_os_event_signal;
            by_watchdog (c_os_event_timedwait 30000 0);
            watchdog_exit;
            by_caller c_pthread_join;
            by_caller (c_dbus_sleep_info_destroy (Some dbus_session));
            by_caller c_os_event_destroy;
            by_caller c_posix_spawnattr_destroy;
            by_caller (c_bfree "reason");
            by_caller (c_bfree "info")] in
  let cf := {| pending := []; wd := Exited; signalled := false; hist := h |} in
  rtc (step i) (start stop_destroy i Waiting) cf
  ∧ wd cf = Exited ∧ joined_in_order (hist cf).
Proof.
  intros i spawn h cf.
  assert (rtc (step i) (start stop_destroy i Waiting) cf) as Hrun.
  { eapply rtc_l.
    { apply (step_watchdog i _ _ _
               {| wait_ret := ETIMEDOUT; spawn_ret := 0; waitpid_rets := [4321] |}
               Waiting
               [c_os_event_timedwait 30000 ETIMEDOUT; spawn; c_waitpid 4321]);
        reflexivity. }
    eapply rtc_l; [apply step_call; discriminate|].
    eapply rtc_l; [apply step_call; discriminate|].
    eapply rtc_l.
    { apply (step_watchdog i _ _ _
               {| wait_ret := 0; spawn_ret := 0; waitpid_rets := [] |}
               Exited [c_os_event_timedwait 30000 0]); reflexivity. }
    eapply rtc_l; [apply step_join|].
    do 5 (eapply rtc_l; [apply step_call; discriminate|]).
    apply rtc_refl. }
  split; [exact Hrun|].
  apply (stop_joins_watchdog stop_destroy i Waiting cf);
    [reflexivity | by eexists | discriminate | exact Hrun | reflexivity].
Defined.

(** A history in the order signal, exit, join has an exit of the watchdog. *)
Lemma joined_in_order_exit h : joined_in_order h → watchdog_exit ∈ h.
Proof.
  intros (h1 & h2 & h3 & h4 & -> & _).
  apply elem_of_app. right. apply elem_of_cons. right.
  apply elem_of_app. right. apply elem_of_cons. by left.
Qed.

Lemma step_no_exit info cf cf' :
  step info cf cf' → wd cf = Exited → watchdog_exit ∉ hist cf →
  wd cf' = Exited ∧ watchdog_exit ∉ hist cf'.
Proof.
  intros Hstep. destruct Hstep; simpl; intros Hwd Hh; [| |done].
  - split; [done|]. by intros [?|[?|?%elem_of_nil]%elem_of_cons]%elem_of_app.
  - split; [done|]. by intros [?|[?|?%elem_of_nil]%elem_of_cons]%elem_of_app.
Qed.

(** A stopping call that finds no watchdog to stop: whatever happens, no
    exit of the watchdog enters the history, so the history is never in the
    order signal, exit, join. *)
Lemma stop_without_exit how (i : os_inhibit_info) cf :
  rtc (step i) (start how i Exited) cf →
  wd cf = Exited ∧ ¬ joined_in_order (hist cf).
Proof.
  intros Hrun.
  assert (wd cf = Exited ∧ watchdog_exit ∉ hist cf) as [Hwd Hh].
  { revert cf Hrun.
    apply (rtc_ind_r (λ cf, wd cf = Exited ∧ watchdog_exit ∉ hist cf)).
    - split; [done|]. simpl. apply not_elem_of_nil.
    - intros cf1 cf2 _ Hstep [Hwd Hh]. by apply (step_no_exit i cf1 cf2). }
  split; [done|]. intros Hj. by apply Hh, joined_in_order_exit.
Qed.

(** [set_active (h, false)] on the active handle that has no bus session
    and no watchdog: the caller signals, and the join, with no thread to wait
    for, is the next thing in the history. *)
Example stop_returns_without_exit :
  let i := active_handle None in
  let cf := {| pending := []; wd := Exited; signalled := true;
               hist := [by_caller c_os_event_signal; by_caller c_pthread_join] |} in
  rtc (step i) (start stop_set_active i Exited) cf
  ∧ ¬ joined_in_order (hist cf).
Proof.
  intros i cf.
  assert (rtc (step i) (start stop_set_active i Exited) cf) as Hrun.
  { eapply rtc_l; [apply step_call; discriminate|].
    eapply rtc_l; [apply step_join|]. apply rtc_refl. }
  split; [done|]. by apply (stop_without_exit stop_set_active i cf).
Qed.

(** C5: a handle is created with its stop event, and [set_active (h, true)]
    meets a thread creation failing with EAGAIN: the handle is active, no
    watchdog runs and nothing undefined has happened yet.  On that active
    handle [set_active (h, false)] returns true and clears the flag after
    signalling the event and joining a thread that was never created, which
    is undefined; [destroy (h)] does the same and goes on to give up the
    resources of the handle.  No watchdog exits between the signal and the
    join, as there is none. *)
Theorem stop_without_watchdog :
  let s := session_run None true "recording" [op_set_active true EAGAIN] in
  let stopped := os_inhibit_sleep_set_active 0 s.1 false s.2 in
  let destroyed := os_inhibit_sleep_destroy s.1 s.2 in
  is_active s.1 = true ∧ watchdog s.2 = false ∧ fault s.2 = false
  ∧ stopped.1.1 = true ∧ is_active stopped.1.2 = false
  ∧ fault stopped.2 = true
  ∧ trace stopped.2 = trace s.2 ++ [c_os_event_signal; c_pthread_join]
  ∧ fault destroyed = true
  ∧ trace destroyed
    = trace s.2 ++ [c_os_event_signal; c_pthread_join;
                    c_dbus_sleep_info_destroy None; c_os_event_destroy;
                    c_posix_spawnattr_destroy; c_bfree "reason"; c_bfree "info"].
Proof. by vm_compute. Qed.

End InhibitProps.

(** * Further properties of os_copyfile *)
Module CopyFileMore.
Import CopyFile CopyFileProps.

#[local] Opaque data_size.

Lemma fread_data fault n f :
  (fread fault n f).1
  = take (n `min` ((if fault is Some off then off `min` length (i_content f)
                    else length (i_content f)) - i_pos f))
      (drop (i_pos f) (i_content f)).
Proof. reflexivity. Qed.

Lemma fread_eof fault n f :
  i_eof (fread fault n f).2
  = i_eof f
    || (bool_decide (length (fread fault n f).1 < n)%nat
        && negb (bool_decide
                   ((if fault is Some off then off `min` length (i_content f)
                     else length (i_content f)) < length (i_content f))%nat)).
Proof. reflexivity. Qed.

Lemma fwrite_written data o :
  o_written (fwrite data o).2 = o_written o ++ take (o_room o) data.
Proof. reflexivity. Qed.

Lemma fwrite_room data o :
  o_room (fwrite data o).2 = (o_room o - (fwrite data o).1)%nat.
Proof. reflexivity. Qed.

Lemma fwrite_count data o : (fwrite data o).1 = (o_room o `min` length data)%nat.
Proof. unfold fwrite. simpl. by rewrite length_take. Qed.

Lemma whole_buffers_below k len :
  ((k + 1) * data_size ≤ len → (k + 1) * data_size ≤ whole_buffers len)%nat.
Proof.
  pose proof data_size_pos. unfold whole_buffers. intros Hle.
  pose proof (Nat.div_mod_eq len data_size) as Hdm.
  pose proof (Nat.mod_upper_bound len data_size ltac:(lia)) as Hr.
  assert (k + 1 ≤ len `div` data_size)%nat by (apply Nat.div_le_lower_bound; lia).
  nia.
Qed.

Lemma whole_buffers_last k len :
  (k * data_size ≤ len → len < k * data_size + data_size →
   whole_buffers len = k * data_size)%nat.
Proof.
  pose proof data_size_pos. unfold whole_buffers. intros Hle Hlt.
  assert (len - k * data_size = len `mod` data_size)%nat as <-; [|lia].
  apply (Nat.mod_unique len data_size k); lia.
Qed.

(** The loop from the head of a buffer, with all that was read so far
    written: what ends up written is the input up to the room of the device
    or to where reading stops, whichever is less, and the end-of-file
    indicator is set exactly when reading reached the end of the file and all
    whole buffers could be written. *)
Lemma copy_loop_outcome fault fuel f o tr room :
  let content := i_content f in
  let limit := if fault is Some off then off `min` length content
               else length content in
  (i_pos f ≤ limit)%nat → (∃ k, i_pos f = k * data_size)%nat →
  i_eof f = false →
  o_written o = take (i_pos f) content →
  (i_pos f ≤ room)%nat → o_room o = (room - i_pos f)%nat →
  (length content - i_pos f < fuel)%nat →
  ∃ f' o' tr',
    copy_loop fault fuel f o tr = Some (f', o', tr')
    ∧ o_written o' = take (room `min` limit) content
    ∧ (i_eof f' = true ↔ limit = length content ∧ (whole_buffers (length content) ≤ room)%nat).
Proof.
  intros content limit. revert f o tr content limit.
  induction fuel as [|fuel IH]; intros f o tr content limit Hpos [k Hk] Heof Hw Hroom Ho Hfuel;
    [lia|].
  rewrite copy_loop_unfold. cbv zeta.
  pose proof data_size_pos as HD.
  assert (limit ≤ length content)%nat as Hlim by (subst limit; destruct fault; lia).
  assert (length (fread fault data_size f).1 = data_size `min` (limit - i_pos f))%nat as Hlen.
  { rewrite fread_data, length_take, length_drop. fold content limit. lia. }
  assert (i_eof (fread fault data_size f).2
          = bool_decide (limit - i_pos f < data_size)%nat && bool_decide (limit = length content)) as Heof'.
  { rewrite fread_eof, Heof, Hlen. fold content limit. simpl.
    f_equal; [apply bool_decide_ext; lia|].
    rewrite <-bool_decide_not. apply bool_decide_ext. lia. }
  destruct (decide (length _ = 0%nat)) as [Hz|Hnz].
  - destruct (decide (length _ = data_size)); [lia|].
    eexists _, _, _. split; [done|]. rewrite Hlen in Hz.
    assert (i_pos f = limit) as Hend by lia.
    split.
    + rewrite Hw. f_equal. lia.
    + rewrite Heof'. rewrite andb_true_iff, !bool_decide_eq_true.
      split; [intros [_ ->]|intros [-> _]; split; [lia|done]].
      split; [done|]. rewrite (whole_buffers_last k); lia.
  - rewrite fwrite_count, Ho, Hlen.
    destruct (decide (_ = data_size)) as [Hfull|Hshort].
    + edestruct (IH (fread fault data_size f).2
                 (fwrite (fread fault data_size f).1 o).2) as (f' & o' & tr' & -> & Hw' & He');
        rewrite ?fread_content, ?fread_pos, ?Hlen; fold content limit.
      * lia.
      * exists (k + 1)%nat. lia.
      * rewrite Heof'. apply andb_false_iff. left. apply bool_decide_eq_false. lia.
      * rewrite fwrite_written, Hw, Ho, fread_data. fold content limit.
        rewrite take_take, take_take_drop. f_equal. lia.
      * lia.
      * rewrite fwrite_room, fwrite_count, Ho, Hlen. lia.
      * lia.
      * eexists _, _, _. split; [done|]. split; [exact Hw'|]. exact He'.
    + eexists _, _, _. split; [done|]. split.
      * rewrite fwrite_written, Hw, Ho, fread_data. fold content limit.
        rewrite take_take, take_take_drop. f_equal. lia.
      * rewrite Heof'. rewrite andb_true_iff, !bool_decide_eq_true.
        split.
        -- intros [Hlast ->]. split; [done|]. rewrite (whole_buffers_last k); lia.
        -- intros [-> Hwb]. split; [|done].
           destruct (decide (length content - i_pos f < data_size)%nat); [done|].
           pose proof (whole_buffers_below k (length content)). lia.
Qed.

(** [os_copyfile] with both files opened. *)
Lemma os_copyfile_outcome e (fs : files) file_path_in file_path_out content :
  may_read e file_path_in = true → may_create e file_path_out = true →
  fs !! file_path_in = Some content → fs !! file_path_out = None →
  ∃ tr,
    os_copyfile e fs file_path_in file_path_out
    = Some (if decide (read_limit e content = length content
                       ∧ (whole_buffers (length content) ≤ write_room e)%nat)
            then 0%Z else (-1)%Z,
            <[file_path_out :=
                take (write_room e `min` read_limit e content) content]> fs,
            tr).
Proof.
  intros Hread Hcreate Hin Hout. unfold os_copyfile, os_file_exists.
  rewrite bool_decide_eq_false_2 by (rewrite Hout; by intros [? ?]).
  unfold fopen_rb, fopen_ab. rewrite Hread, Hcreate, Hin.
  cbn [mbind option_bind i_content].
  match goal with
  | |- context [copy_loop ?fault ?fuel ?f0 ?o0 ?tr0] =>
      pose proof (copy_loop_outcome fault fuel f0 o0 tr0 (write_room e)) as Hloop
  end.
  cbn [i_content i_pos i_eof o_written o_room] in Hloop.
  destruct Hloop as (f' & o' & tr' & Hloop & Hw & He);
    [lia | by exists 0%nat | done | done | lia | lia | lia |].
  rewrite Hloop. cbn [mbind option_bind].
  eexists. rewrite Hw. unfold read_limit.
  destruct (i_eof f') eqn:Hf'.
  - rewrite decide_True by (by apply He). done.
  - rewrite decide_False; [done|]. intros Hyes. apply He in Hyes. done.
Qed.

(** X1: both files can be opened, the destination does not exist, nothing
    fails while reading and the device takes the whole file: the result is 0,
    the destination holds the content of the input, and no other file has
    changed. *)
Theorem os_copyfile_copies e (fs : files) file_path_in file_path_out content :
  may_read e file_path_in = true → may_create e file_path_out = true →
  fs !! file_path_in = Some content → fs !! file_path_out = None →
  read_fault e = None → (length content ≤ write_room e)%nat →
  ∃ tr, os_copyfile e fs file_path_in file_path_out
        = Some (0%Z, <[file_path_out := content]> fs, tr).
Proof.
  intros Hread Hcreate Hin Hout Hfault Hroom.
  destruct (os_copyfile_outcome e fs _ _ content Hread Hcreate Hin Hout)
    as [tr ->].
  unfold read_limit, whole_buffers. rewrite Hfault.
  rewrite decide_True by (split; [done|lia]).
  exists tr. by rewrite Nat.min_r, take_ge by lia.
Qed.

Lemma os_copyfile_copies_witness :
  let content := replicate 4100 Byte.x61 in
  ∃ tr, os_copyfile (calm 4500) {[ "in" := content ]} "in" "out"
        = Some (0%Z, <["out" := content]> {[ "in" := content ]}, tr).
Proof.
  intros content.
  apply (os_copyfile_copies (calm 4500) {[ "in" := content ]} "in" "out" content);
    [reflexivity | reflexivity | reflexivity | reflexivity | reflexivity
    | vm_compute; lia].
Defined.

(** X2: the device fails at an offset inside the input: the result is -1,
    and the destination holds the input up to that offset (or up to the room
    of the output device, if that is less). *)
Theorem os_copyfile_read_error e (fs : files) file_path_in file_path_out
    content off :
  may_read e file_path_in = true → may_create e file_path_out = true →
  fs !! file_path_in = Some content → fs !! file_path_out = None →
  read_fault e = Some off → (off < length content)%nat →
  ∃ tr, os_copyfile e fs file_path_in file_path_out
        = Some ((-1)%Z,
                <[file_path_out := take (write_room e `min` off) content]> fs, tr).
Proof.
  intros Hread Hcreate Hin Hout Hfault Hoff.
  destruct (os_copyfile_outcome e fs _ _ content Hread Hcreate Hin Hout)
    as [tr ->].
  unfold read_limit. rewrite Hfault.
  rewrite decide_False by lia.
  exists tr. by rewrite (Nat.min_l off) by lia.
Qed.

Lemma os_copyfile_read_error_witness :
  let e := {| may_read := λ _, true; may_create := λ _, true;
              read_fault := Some 4098%nat; write_room := 4500 |} in
  let content := replicate 4100 Byte.x61 in
  ∃ tr, os_copyfile e {[ "in" := content ]} "in" "out"
        = Some ((-1)%Z,
                <["out" := take (4500 `min` 4098) content]> {[ "in" := content ]},
                tr).
Proof.
  intros e content.
  apply (os_copyfile_read_error e {[ "in" := content ]} "in" "out" content 4098);
    [reflexivity | reflexivity | reflexivity | reflexivity | reflexivity
    | vm_compute; lia].
Defined.

(** X3: nothing fails while reading, the device takes all whole buffers of
    the input but not all of the rest: the result is 0 all the same, and the
    destination holds only as much of the input as the device took. *)
Theorem os_copyfile_short_last_write e (fs : files) file_path_in file_path_out
    content :
  may_read e file_path_in = true → may_create e file_path_out = true →
  fs !! file_path_in = Some content → fs !! file_path_out = None →
  read_fault e = None →
  (whole_buffers (length content) ≤ write_room e < length content)%nat →
  ∃ tr written,
    os_copyfile e fs file_path_in file_path_out
    = Some (0%Z, <[file_path_out := written]> fs, tr)
    ∧ written = take (write_room e) content
    ∧ (length written < length content)%nat.
Proof.
  intros Hread Hcreate Hin Hout Hfault [Hwhole Hroom].
  destruct (os_copyfile_outcome e fs _ _ content Hread Hcreate Hin Hout)
    as [tr ->].
  unfold read_limit. rewrite Hfault. rewrite decide_True by done.
  exists tr, (take (write_room e) content). split_and!.
  - by rewrite Nat.min_l by lia.
  - done.
  - rewrite length_take. lia.
Qed.

Lemma os_copyfile_short_last_write_witness :
  let content := replicate 4100 Byte.x61 in
  ∃ tr written,
    os_copyfile (calm 4097) {[ "in" := content ]} "in" "out"
    = Some (0%Z, <["out" := written]> {[ "in" := content ]}, tr)
    ∧ written = take 4097 content
    ∧ (length written < length content)%nat.
Proof.
  intros content.
  apply (os_copyfile_short_last_write (calm 4097) {[ "in" := content ]}
           "in" "out" content);
    [reflexivity | reflexivity | reflexivity | reflexivity | reflexivity
    | vm_compute; lia].
Defined.

(** X4: nothing fails while reading and the device cannot take all whole
    buffers of the input: [os_copyfile] still returns, and the destination it
    leaves is cut short: it holds the bytes the device took, fewer than the
    input, and nothing is taken back.  The value returned is not stated: it
    follows the count of the [fwrite] call that met the full device, and so
    the buffering of the stream. *)
Theorem os_copyfile_short_write_destination e (fs : files) file_path_in
    file_path_out content :
  may_read e file_path_in = true → may_create e file_path_out = true →
  fs !! file_path_in = Some content → fs !! file_path_out = None →
  read_fault e = None →
  (write_room e < whole_buffers (length content))%nat →
  ∃ ret tr written,
    os_copyfile e fs file_path_in file_path_out
    = Some (ret, <[file_path_out := written]> fs, tr)
    ∧ written = take (write_room e) content
    ∧ (length written < length content)%nat.
Proof.
  intros Hread Hcreate Hin Hout Hfault Hroom.
  destruct (os_copyfile_outcome e fs _ _ content Hread Hcreate Hin Hout)
    as [tr ->].
  unfold read_limit. rewrite Hfault. unfold whole_buffers in Hroom.
  eexists _, tr, (take (write_room e) content). split_and!.
  - by rewrite Nat.min_l by lia.
  - done.
  - rewrite length_take. lia.
Qed.

Lemma os_copyfile_short_write_destination_witness :
  let content := replicate (2 * 4096 + 5) Byte.x61 in
  ∃ ret tr written,
    os_copyfile (calm 4096) {[ "in" := content ]} "in" "out"
    = Some (ret, <["out" := written]> {[ "in" := content ]}, tr)
    ∧ written = take 4096 content
    ∧ (length written < length content)%nat.
Proof.
  intros content.
  apply (os_copyfile_short_write_destination (calm 4096) {[ "in" := content ]}
           "in" "out" content);
    [reflexivity | reflexivity | reflexivity | reflexivity | reflexivity
    | vm_compute; lia].
Defined.

Lemma fopen_rb_may e (fs : files) path f :
  fopen_rb e fs path = Some f → may_read e path = true.
Proof. unfold fopen_rb. by destruct (may_read e path). Qed.

Lemma fopen_ab_may e path old o :
  fopen_ab e path old = Some o → may_create e path = true.
Proof. unfold fopen_ab. by destruct (may_create e path). Qed.

(** What [os_copyfile] leaves behind is the file system it found, or that
    file system with a destination that did not exist before. *)
Lemma os_copyfile_files e (fs fs' : files) file_path_in file_path_out ret tr :
  os_copyfile e fs file_path_in file_path_out = Some (ret, fs', tr) →
  fs' = fs
  ∨ (fs !! file_path_out = None ∧ is_Some (fs !! file_path_in)
     ∧ ∃ written, fs' = <[file_path_out := written]> fs).
Proof.
  unfold os_copyfile, os_file_exists. case_bool_decide as Hex.
  { intros [= <- <- <-]. by left. }
  apply eq_None_not_Some in Hex.
  destruct (fopen_rb e fs file_path_in) as [file_in|] eqn:Hin;
    [|intros [= <- <- <-]; by left].
  destruct (fopen_ab e file_path_out []) as [file_out|];
    [|intros [= <- <- <-]; by left].
  apply fopen_rb_Some in Hin as (Hcontent & _ & _).
  destruct (copy_loop _ _ file_in _ _) as [[[f o] tr1]|]; [|done].
  cbn [mbind option_bind]. intros [= <- <- <-]. right.
  split_and!; [done|by eexists|by eexists].
Qed.

(** X5: whatever the outcome, [os_copyfile] changes no file other than the
    destination, and it does not change the input file. *)
Theorem os_copyfile_touches_destination_only e (fs fs' : files)
    file_path_in file_path_out ret tr :
  os_copyfile e fs file_path_in file_path_out = Some (ret, fs', tr) →
  (∀ path, path ≠ file_path_out → fs' !! path = fs !! path)
  ∧ fs' !! file_path_in = fs !! file_path_in.
Proof.
  intros Hrun.
  destruct (os_copyfile_files _ _ _ _ _ _ _ Hrun)
    as [->|(Hout & [content Hin] & written & ->)]; [done|].
  split.
  - intros path Hne. by rewrite lookup_insert_ne.
  - rewrite lookup_insert_ne; [done|]. intros <-. congruence.
Qed.

Lemma os_copyfile_touches_destination_only_witness :
  let abc := [Byte.x61; Byte.x62; Byte.x63] in
  let fs : files := {[ "in" := abc; "other" := [Byte.x7a] ]} in
  let fs' : files := <["out" := abc]> fs in
  (∀ path, path ≠ "out" → fs' !! path = fs !! path)
  ∧ fs' !! "in" = fs !! "in".
Proof.
  intros abc fs fs'.
  apply (os_copyfile_touches_destination_only (calm 100) fs fs' "in" "out" 0%Z
           [c_access "out"; c_fopen "in" "rb"; c_fopen "out" "ab+";
            c_fread abc; c_fwrite abc 3; c_feof; c_fclose "out"; c_fclose "in"]).
  vm_compute. reflexivity.
Defined.

(** X6: a destination that [os_copyfile] makes holds a beginning of the
    input file, whatever fails on the way and whatever the result. *)
Theorem os_copyfile_destination_prefix e (fs fs' : files)
    file_path_in file_path_out ret tr :
  os_copyfile e fs file_path_in file_path_out = Some (ret, fs', tr) →
  fs !! file_path_out = None →
  fs' !! file_path_out = None
  ∨ ∃ content n, fs !! file_path_in = Some content
                 ∧ fs' !! file_path_out = Some (take n content).
Proof.
  intros Hrun Hout.
  destruct (fopen_rb e fs file_path_in) as [file_in|] eqn:Hin.
  - destruct (fopen_ab e file_path_out []) as [file_out|] eqn:Hab.
    + apply fopen_rb_may in Hin as Hread. apply fopen_ab_may in Hab as Hcreate.
      apply fopen_rb_Some in Hin as (Hcontent & _ & _).
      destruct (os_copyfile_outcome e fs _ _ _ Hread Hcreate Hcontent Hout)
        as [tr' Hrun'].
      rewrite Hrun' in Hrun. injection Hrun as <- <- <-. right.
      eexists _, _. split; [done|]. by rewrite lookup_insert_eq.
    + left. revert Hrun. unfold os_copyfile, os_file_exists.
      rewrite bool_decide_eq_false_2 by (rewrite Hout; by intros [? ?]).
      rewrite Hin, Hab. by intros [= <- <- <-].
  - left. revert Hrun. unfold os_copyfile, os_file_exists.
    rewrite bool_decide_eq_false_2 by (rewrite Hout; by intros [? ?]).
    rewrite Hin. by intros [= <- <- <-].
Qed.

Lemma os_copyfile_destination_prefix_witness :
  let e := {| may_read := λ _, true; may_create := λ _, true;
              read_fault := Some 2%nat; write_room := 100 |} in
  let abc := [Byte.x61; Byte.x62; Byte.x63] in
  let fs : files := {[ "in" := abc ]} in
  let fs' : files := <["out" := [Byte.x61; Byte.x62]]> fs in
  fs' !! "out" = None
  ∨ ∃ content n, fs !! "in" = Some content ∧ fs' !! "out" = Some (take n content).
Proof.
  intros e abc fs fs'.
  apply (os_copyfile_destination_prefix e fs fs' "in" "out" (-1)%Z
           [c_access "out"; c_fopen "in" "rb"; c_fopen "out" "ab+";
            c_fread [Byte.x61; Byte.x62]; c_fwrite [Byte.x61; Byte.x62] 2;
            c_feof; c_fclose "out"; c_fclose "in"]).
  - vm_compute. reflexivity.
  - reflexivity.
Defined.

End CopyFileMore.

(** * Time *)
Module ClockProps.
Import Clock.

#[local] Open Scope Z_scope.

Example os_gettime_ns_example :
  os_gettime_ns {| tv_sec := 12; tv_nsec := 345 |} = 12000000345.
Proof. reflexivity. Qed.

(** After 18446744073 s (some 584 years) and 709551616 ns the counter is
    back at 0. *)
Example os_gettime_ns_wraps :
  os_gettime_ns {| tv_sec := 18446744073; tv_nsec := 709551616 |} = 0.
Proof. reflexivity. Qed.

Example os_sleepto_ns_past :
  os_sleepto_ns {| tv_sec := 2; tv_nsec := 0 |} 1999999999 [slept] = (Some false, []).
Proof. reflexivity. Qed.

Example os_sleepto_ns_interrupted :
  os_sleepto_ns {| tv_sec := 2; tv_nsec := 0 |} 3500000000
    [interrupted {| tv_sec := 0; tv_nsec := 700 |}; slept]
  = (Some true, [c_nanosleep {| tv_sec := 1; tv_nsec := 500000000 |};
                 c_nanosleep {| tv_sec := 0; tv_nsec := 700 |}]).
Proof. reflexivity. Qed.

Example os_sleep_ms_example : os_sleep_ms 5000000 = [c_usleep 705032704].
Proof. reflexivity. Qed.

Lemma os_gettime_ns_exact ts :
  clock_time ts → os_gettime_ns ts = tv_sec ts * 1000000000 + tv_nsec ts.
Proof.
  intros [Hsec Hnsec]. unfold os_gettime_ns, uint64.
  rewrite (Z.mod_small (tv_sec ts)) by lia.
  rewrite (Z.mod_small (tv_nsec ts)) by lia.
  rewrite (Z.mod_small (tv_sec ts * _)) by lia.
  apply Z.mod_small. lia.
Qed.

Lemma os_gettime_ns_range ts : 0 ≤ os_gettime_ns ts < 2 ^ 64.
Proof. unfold os_gettime_ns, uint64. apply Z.mod_pos_bound. lia. Qed.

(** X7: a deadline that has passed gives false with no sleep at all.
    Otherwise the time asked of the first [nanosleep] is a valid [timespec]
    (seconds not negative, nanoseconds below 1000000000) worth exactly the
    nanoseconds between the clock and the deadline; if that call sleeps to
    its end the function returns true with no further call. *)
Theorem os_sleepto_ns_request clock time_target answers :
  0 ≤ time_target < 2 ^ 64 →
  (time_target < os_gettime_ns clock →
     os_sleepto_ns clock time_target answers = (Some false, []))
  ∧ (os_gettime_ns clock ≤ time_target →
       ∃ req,
         os_sleepto_ns clock time_target (slept :: answers)
         = (Some true, [c_nanosleep req])
         ∧ 0 ≤ tv_sec req ∧ 0 ≤ tv_nsec req < 1000000000
         ∧ tv_sec req * 1000000000 + tv_nsec req
           = time_target - os_gettime_ns clock).
Proof.
  intros Htarget. pose proof (os_gettime_ns_range clock) as Hclock.
  unfold os_sleepto_ns. split; intros Hcmp.
  - by rewrite (proj2 (Z.ltb_lt _ _)).
  - rewrite (proj2 (Z.ltb_ge _ _)) by done. cbn [sleep_loop].
    eexists. split; [done|]. cbn [tv_sec tv_nsec]. unfold uint64.
    rewrite Z.mod_small by lia.
    pose proof (Z.div_mod (time_target - os_gettime_ns clock) 1000000000
                  ltac:(lia)) as Hdm.
    pose proof (Z.mod_pos_bound (time_target - os_gettime_ns clock) 1000000000
                  ltac:(lia)) as Hm.
    split_and!; [apply Z.div_pos; lia | lia | lia | lia].
Qed.

Lemma os_sleepto_ns_request_witness :
  os_sleepto_ns {| tv_sec := 2; tv_nsec := 0 |} 1999999999 [slept]
  = (Some false, [])
  ∧ ∃ req,
      os_sleepto_ns {| tv_sec := 2; tv_nsec := 0 |} 3500000000 [slept]
      = (Some true, [c_nanosleep req])
      ∧ 0 ≤ tv_sec req ∧ 0 ≤ tv_nsec req < 1000000000
      ∧ tv_sec req * 1000000000 + tv_nsec req
        = 3500000000 - os_gettime_ns {| tv_sec := 2; tv_nsec := 0 |}.
Proof.
  split.
  - apply (os_sleepto_ns_request {| tv_sec := 2; tv_nsec := 0 |} 1999999999 [slept]);
      [lia | vm_compute; reflexivity].
  - apply (os_sleepto_ns_request {| tv_sec := 2; tv_nsec := 0 |} 3500000000 []);
      [lia | vm_compute; discriminate].
Defined.

(** X8: [os_gettime_ns] and the split in [os_sleepto_ns] undo each other.
    With the clock at [now] and the deadline the reading the clock gives at
    [now] plus [span], the time asked of [nanosleep] is [span]. *)
Theorem os_sleepto_ns_span now span answers :
  clock_time now → 0 ≤ tv_sec span → 0 ≤ tv_nsec span < 1000000000 →
  tv_sec now + tv_sec span < 18446744072 →
  os_sleepto_ns now
    (os_gettime_ns now + (tv_sec span * 1000000000 + tv_nsec span))
    (slept :: answers)
  = (Some true, [c_nanosleep span]).
Proof.
  intros Hnow Hsec Hnsec Hlate. pose proof Hnow as [Hnow1 Hnow2].
  unfold os_sleepto_ns. rewrite os_gettime_ns_exact by done.
  rewrite (proj2 (Z.ltb_ge _ _)) by lia. cbn [sleep_loop]. unfold uint64.
  replace (_ + _ - _) with (tv_sec span * 1000000000 + tv_nsec span) by lia.
  rewrite Z.mod_small by lia.
  rewrite Z.div_add_l, Z.div_small, Z.add_0_r by lia.
  rewrite Z.add_comm, Z.mod_add, Z.mod_small by lia.
  by destruct span.
Qed.

Lemma os_sleepto_ns_span_witness :
  os_sleepto_ns {| tv_sec := 100; tv_nsec := 999999999 |}
    (os_gettime_ns {| tv_sec := 100; tv_nsec := 999999999 |}
     + (3 * 1000000000 + 2))
    [slept]
  = (Some true, [c_nanosleep {| tv_sec := 3; tv_nsec := 2 |}]).
Proof.
  apply (os_sleepto_ns_span {| tv_sec := 100; tv_nsec := 999999999 |}
           {| tv_sec := 3; tv_nsec := 2 |} []);
    unfold clock_time; simpl; lia.
Defined.

(** X9: [os_sleep_ms] asks [usleep] for [duration*1000] microseconds only up
    to 4294967 ms; beyond that the product wraps around in 32 bits and the
    sleep is shorter than asked.  It is never 4294967296 microseconds (some 71
    minutes) or more. *)
Theorem os_sleep_ms_wraps duration :
  0 ≤ duration < 2 ^ 32 →
  ∃ usec,
    os_sleep_ms duration = [c_usleep usec]
    ∧ 0 ≤ usec < 2 ^ 32
    ∧ (duration ≤ 4294967 → usec = duration * 1000)
    ∧ (4294967 < duration → usec < duration * 1000).
Proof.
  intros Hd. unfold os_sleep_ms, uint32. eexists. split; [done|].
  pose proof (Z.mod_pos_bound (duration * 1000) (2 ^ 32) ltac:(lia)) as Hm.
  split_and!; [lia | lia | |].
  - intros Hsmall. apply Z.mod_small. lia.
  - intros Hlarge. lia.
Qed.

Lemma os_sleep_ms_wraps_witness :
  ∃ usec,
    os_sleep_ms 5000000 = [c_usleep usec]
    ∧ 0 ≤ usec < 2 ^ 32
    ∧ (5000000 ≤ 4294967 → usec = 5000000 * 1000)
    ∧ (4294967 < 5000000 → usec < 5000000 * 1000).
Proof. apply (os_sleep_ms_wraps 5000000). lia. Defined.

Lemma sleep_loop_resumes req (left : list timespec) answers :
  sleep_loop req ((interrupted <$> left) ++ slept :: answers)
  = (true, c_nanosleep <$> (req :: left)).
Proof.
  revert req. induction left as [|t left IH]; intros req; [done|].
  cbn [fmap list_fmap app sleep_loop]. by rewrite IH.
Qed.

(** X10: interrupted sleeps resume.  After each interruption [nanosleep] is
    called again with exactly the time that call reported as left, and the
    function returns true after the first call that sleeps to its end. *)
Theorem os_sleepto_ns_resumes clock time_target (left : list timespec) answers :
  0 ≤ time_target < 2 ^ 64 → os_gettime_ns clock ≤ time_target →
  ∃ req,
    os_sleepto_ns clock time_target
      ((interrupted <$> left) ++ slept :: answers)
    = (Some true, c_nanosleep <$> (req :: left))
    ∧ tv_sec req * 1000000000 + tv_nsec req
      = time_target - os_gettime_ns clock.
Proof.
  intros Htarget Hcmp. pose proof (os_gettime_ns_range clock) as Hclock.
  unfold os_sleepto_ns. rewrite (proj2 (Z.ltb_ge _ _)) by done.
  rewrite sleep_loop_resumes. eexists. split; [done|].
  - cbn [tv_sec tv_nsec]. unfold uint64. rewrite Z.mod_small by lia.
    pose proof (Z.div_mod (time_target - os_gettime_ns clock) 1000000000
                  ltac:(lia)). lia.
Qed.

Lemma os_sleepto_ns_resumes_witness :
  ∃ req,
    os_sleepto_ns {| tv_sec := 2; tv_nsec := 0 |} 3500000000
      ((interrupted <$> [ {| tv_sec := 0; tv_nsec := 700 |} ]) ++ [slept])
    = (Some true, c_nanosleep <$> [req; {| tv_sec := 0; tv_nsec := 700 |}])
    ∧ tv_sec req * 1000000000 + tv_nsec req
      = 3500000000 - os_gettime_ns {| tv_sec := 2; tv_nsec := 0 |}.
Proof.
  apply (os_sleepto_ns_resumes {| tv_sec := 2; tv_nsec := 0 |} 3500000000
           [ {| tv_sec := 0; tv_nsec := 700 |} ] []);
    [lia | vm_compute; discriminate].
Defined.

End ClockProps.

(** * CPU usage *)
Module CpuUsageProps.
Import CpuUsage.

#[local] Open Scope Z_scope.

Example query_first :
  os_cpu_usage_info_query
    (Some (os_cpu_usage_info_start {| cpu_time := 1000; tms_stime := 10; tms_utime := 20 |} 4))
    {| cpu_time := 1100; tms_stime := 15; tms_utime := 45 |}
  = (load 30 100 4,
     Some {| last_cpu_time := 1100; last_sys_time := 15; last_user_time := 45;
             core_count := 4 |}).
Proof. reflexivity. Qed.

Example query_null :
  os_cpu_usage_info_query None {| cpu_time := 1100; tms_stime := 15; tms_utime := 45 |}
  = (idle_usage, None).
Proof. reflexivity. Qed.

Lemma clock_t_exact z : - 2 ^ 63 ≤ z < 2 ^ 63 → clock_t z = z.
Proof. intros Hz. unfold clock_t. rewrite Z.mod_small; lia. Qed.

(** Where the subtraction leaves the range of [clock_t]: from the least
    value to the greatest the elapsed time comes out as -1. *)
Example query_overflow :
  os_cpu_usage_info_query
    (Some {| last_cpu_time := - 2 ^ 63; last_sys_time := 0; last_user_time := 0;
             core_count := 1 |})
    {| cpu_time := 2 ^ 63 - 1; tms_stime := 0; tms_utime := 0 |}
  = (load 0 (-1) 1,
     Some {| last_cpu_time := 2 ^ 63 - 1; last_sys_time := 0; last_user_time := 0;
             core_count := 1 |}).
Proof. reflexivity. Qed.

(** One query: what it stores, by the comparisons alone. *)
Lemma query_stores i s :
  ∃ u i',
    os_cpu_usage_info_query (Some i) s = (u, Some i')
    ∧ core_count i' = core_count i
    ∧ (u = idle_usage ∨ ∃ busy elapsed, u = load busy elapsed (core_count i))
    ∧ last_cpu_time i ≤ last_cpu_time i'
    ∧ last_sys_time i ≤ last_sys_time i'
    ∧ last_user_time i ≤ last_user_time i'
    ∧ (i' = i
       ∨ (last_cpu_time i' = cpu_time s ∧ last_sys_time i' = tms_stime s
          ∧ last_user_time i' = tms_utime s)).
Proof.
  unfold os_cpu_usage_info_query.
  destruct (cpu_time s <=? last_cpu_time i) eqn:Hcpu;
    [|destruct (tms_stime s <? last_sys_time i) eqn:Hsys;
      [|destruct (tms_utime s <? last_user_time i) eqn:Huser]];
    cbn [orb]; eexists _, _; (split; [done|]);
    try (split_and!; [done|by left|lia|lia|lia|by left]).
  apply Z.leb_gt in Hcpu. apply Z.ltb_ge in Hsys, Huser. simpl.
  split_and!; [done|right; by eexists _, _|lia|lia|lia|by right].
Qed.

(** One query on times that are not extreme: what it returns against what
    it stores. *)
Lemma query_step i s :
  ticks_info i → ticks_sample s →
  ∃ u i',
    os_cpu_usage_info_query (Some i) s = (u, Some i')
    ∧ ticks_info i'
    ∧ sound_usage (core_count i) u
    ∧ core_count i' = core_count i
    ∧ last_cpu_time i' = last_cpu_time i + elapsed_of u
    ∧ last_sys_time i' + last_user_time i'
      = last_sys_time i + last_user_time i + busy_of u.
Proof.
  intros Hi (Hc' & Hs' & Hu'). pose proof Hi as (Hc & Hs & Hu).
  unfold ticks in *. unfold os_cpu_usage_info_query.
  destruct (cpu_time s <=? last_cpu_time i) eqn:Hcpu;
    [|destruct (tms_stime s <? last_sys_time i) eqn:Hsys;
      [|destruct (tms_utime s <? last_user_time i) eqn:Huser]];
    cbn [orb]; eexists _, _; (split; [done|]);
    cbn [sound_usage elapsed_of busy_of];
    try (split_and!; [done|done|done|lia|lia]).
  apply Z.leb_gt in Hcpu. apply Z.ltb_ge in Hsys, Huser.
  rewrite (clock_t_exact (tms_stime s - last_sys_time i)) by lia.
  rewrite (clock_t_exact (tms_utime s - last_user_time i)) by lia.
  rewrite (clock_t_exact (cpu_time s - last_cpu_time i)) by lia.
  rewrite clock_t_exact by lia.
  cbn [last_cpu_time last_sys_time last_user_time core_count].
  split_and!; [by unfold ticks_info, ticks|lia..].
Qed.

Lemma queries_cons i s samples :
  ∃ u i',
    os_cpu_usage_info_query (Some i) s = (u, Some i')
    ∧ queries i (s :: samples) = (u :: (queries i' samples).1, (queries i' samples).2).
Proof.
  destruct (query_stores i s) as (u & i' & Hq & _). exists u, i'. split; [done|].
  cbn [queries]. rewrite Hq. by destruct (queries i' samples).
Qed.

(** X11: over any run of queries on one structure, with times that are
    not within 2^61 of the ends of [clock_t]: each load that is computed
    divides a busy time that is not negative by an elapsed time that is
    positive, and by the core count taken at the start; the elapsed times add
    up to the advance of the stored clock time and the busy times to the
    advance of the stored system and user times: no tick is counted twice or
    lost, whichever samples were turned down.  There is one result per
    sample. *)
Theorem queries_account i samples :
  ticks_info i → Forall ticks_sample samples →
  Forall (sound_usage (core_count i)) (queries i samples).1
  ∧ sum_list (elapsed_of <$> (queries i samples).1)
    = last_cpu_time (queries i samples).2 - last_cpu_time i
  ∧ sum_list (busy_of <$> (queries i samples).1)
    = last_sys_time (queries i samples).2 - last_sys_time i
      + (last_user_time (queries i samples).2 - last_user_time i)
  ∧ length (queries i samples).1 = length samples.
Proof.
  intros Hi Hsamples. revert i Hi.
  induction Hsamples as [|s samples Hs _ IH]; intros i Hi.
  - simpl. split_and!; [done|lia|lia|done].
  - destruct (queries_cons i s samples) as (u & i' & Hq & ->).
    destruct (query_step i s Hi Hs)
      as (u' & i'' & Hq' & Hi' & Hu & Hn & Hcpu & Hbusy).
    rewrite Hq in Hq'. injection Hq' as <- <-.
    destruct (IH i' Hi') as (Hall & Help & Hb & Hlen). cbn [fst snd].
    split_and!.
    + constructor; [done|]. by rewrite <-Hn.
    + cbn [fmap list_fmap sum_list foldr]. unfold sum_list in Help. lia.
    + cbn [fmap list_fmap sum_list foldr]. unfold sum_list in Hb. lia.
    + simpl. by rewrite Hlen.
Qed.

Lemma queries_account_witness :
  let i := os_cpu_usage_info_start
             {| cpu_time := 1000; tms_stime := 10; tms_utime := 20 |} 4 in
  let samples := [ {| cpu_time := 1100; tms_stime := 15; tms_utime := 45 |};
                   {| cpu_time := 1050; tms_stime := 16; tms_utime := 46 |};
                   {| cpu_time := -1; tms_stime := 0; tms_utime := 0 |};
                   {| cpu_time := 1300; tms_stime := 20; tms_utime := 145 |} ] in
  Forall (sound_usage (core_count i)) (queries i samples).1
  ∧ sum_list (elapsed_of <$> (queries i samples).1)
    = last_cpu_time (queries i samples).2 - last_cpu_time i
  ∧ sum_list (busy_of <$> (queries i samples).1)
    = last_sys_time (queries i samples).2 - last_sys_time i
      + (last_user_time (queries i samples).2 - last_user_time i)
  ∧ length (queries i samples).1 = length samples.
Proof.
  intros i samples. apply (queries_account i samples).
  - unfold ticks_info, ticks. simpl. lia.
  - repeat constructor; unfold ticks; simpl; lia.
Defined.

(** X12: the stored times never go back and the core count never changes,
    whatever the samples. *)
Theorem queries_monotone i samples :
  last_cpu_time i ≤ last_cpu_time (queries i samples).2
  ∧ last_sys_time i ≤ last_sys_time (queries i samples).2
  ∧ last_user_time i ≤ last_user_time (queries i samples).2
  ∧ core_count (queries i samples).2 = core_count i.
Proof.
  revert i. induction samples as [|s samples IH]; intros i; [by simpl|].
  destruct (queries_cons i s samples) as (u & i' & Hq & ->).
  destruct (query_stores i s) as (u' & i'' & Hq' & Hn & _ & Hcpu & Hsys & Huser & _).
  rewrite Hq in Hq'. injection Hq' as <- <-.
  destruct (IH i') as (? & ? & ? & ?). cbn [snd].
  split_and!; lia.
Qed.

(** X13: while [times] shows no more than the stored clock time (a clock
    that was set back, or its error value -1), every query answers 0.0 and
    stores nothing, even when the process times have advanced. *)
Theorem queries_behind i samples :
  Forall (λ s, cpu_time s ≤ last_cpu_time i) samples →
  queries i samples = (replicate (length samples) idle_usage, i).
Proof.
  induction 1 as [|s samples Hs _ IH]; [done|].
  cbn [queries os_cpu_usage_info_query].
  rewrite (proj2 (Z.leb_le _ _)) by done. cbn [orb]. by rewrite IH.
Qed.

Lemma queries_behind_witness :
  let i := os_cpu_usage_info_start {| cpu_time := 1000; tms_stime := 10; tms_utime := 20 |} 4 in
  let samples := [ {| cpu_time := -1; tms_stime := 0; tms_utime := 0 |};
                   {| cpu_time := 1000; tms_stime := 50; tms_utime := 90 |} ] in
  queries i samples = ([idle_usage; idle_usage], i).
Proof.
  intros i samples. apply (queries_behind i samples).
  repeat constructor; simpl; lia.
Defined.

End CpuUsageProps.

(** * Configuration paths *)
Module ConfigPathProps.
Import ConfigPath.

Lemma string_app_assoc (a b c : string) : (a +:+ b) +:+ c = a +:+ b +:+ c.
Proof.
  induction a as [|x a IH]; [done|].
  by rewrite !DlopenProps.append_cons, IH.
Qed.

Lemma string_app_nil_r (a : string) : a +:+ "" = a.
Proof.
  induction a as [|x a IH]; [done|]. by rewrite DlopenProps.append_cons, IH.
Qed.

Lemma substring_whole (n : nat) (s : string) :
  String.length s ≤ n → String.substring 0 n s = s.
Proof.
  revert n. induction s as [|x s IH]; intros n Hn.
  - by destruct n.
  - destruct n as [|n]; simpl in *; [lia|]. rewrite IH; [done|lia].
Qed.

(** A text that fits is left whole in the buffer. *)
Lemma snprintf_fits size text :
  String.length text < size →
  snprintf size text = (Some text, Z.of_nat (String.length text)).
Proof.
  intros Hfit. unfold snprintf. destruct size as [|size]; [lia|].
  rewrite substring_whole; [done|lia].
Qed.

Example config_path_xdg_default :
  os_get_config_path true (env_of [("HOME", "/home/jim")]) 64 (Some "obs-studio")
  = returned (Some "/home/jim/.config/obs-studio", 28%Z).
Proof. reflexivity. Qed.

Example config_path_truncated :
  os_get_config_path false (env_of [("HOME", "/home/jim")]) 8 (Some "obs-studio")
  = returned (Some "/home/j", 21%Z).
Proof. reflexivity. Qed.

Example config_path_ptr_plain :
  os_get_config_path_ptr false (env_of [("HOME", "/home/jim")]) "obs-studio"
  = returned "/home/jim/.obs-studio".
Proof. reflexivity. Qed.

(** X14: for a name that is not empty, the buffer variant formats the very
    path the pointer variant returns: it crashes when that one crashes, and
    otherwise hands the path to [snprintf], so that a buffer longer than the
    path holds the whole path and the return value is its length. *)
Theorem config_path_agree USE_XDG getenv size (name : string) :
  name ≠ "" →
  match os_get_config_path_ptr USE_XDG getenv name with
  | crashed msg =>
      os_get_config_path USE_XDG getenv size (Some name) = crashed msg
  | returned path =>
      os_get_config_path USE_XDG getenv size (Some name)
      = returned (snprintf size path)
      ∧ (String.length path < size →
           os_get_config_path USE_XDG getenv size (Some name)
           = returned (Some path, Z.of_nat (String.length path)))
  end.
Proof.
  intros Hname. unfold os_get_config_path, os_get_config_path_ptr.
  assert (no_name (Some name) = false) as -> by (by destruct name).
  unfold Dlopen.dstr_cat, Dlopen.dstr_init_copy. cbn [name_text default].
  destruct USE_XDG;
    [destruct (getenv "XDG_CONFIG_HOME")|]; try destruct (getenv "HOME");
    try done; rewrite string_app_assoc;
    (split; [done|]); intros Hfit; by rewrite snprintf_fits.
Qed.

Lemma config_path_agree_witness :
  os_get_config_path true (env_of [("HOME", "/home/jim")]) 64 (Some "obs-studio")
  = returned (snprintf 64 "/home/jim/.config/obs-studio")
  ∧ (String.length "/home/jim/.config/obs-studio" < 64 →
       os_get_config_path true (env_of [("HOME", "/home/jim")]) 64 (Some "obs-studio")
       = returned (Some "/home/jim/.config/obs-studio",
                   Z.of_nat (String.length "/home/jim/.config/obs-studio"))).
Proof.
  apply (config_path_agree true (env_of [("HOME", "/home/jim")]) 64 "obs-studio").
  discriminate.
Defined.

(** X15: for no name (NULL or empty for the buffer variant, empty for the
    pointer variant) the two differ: the pointer variant returns what the
    buffer variant formats followed by "/" in the XDG build and by "/."
    otherwise. *)
Theorem config_path_no_name USE_XDG getenv size (name : option string) :
  no_name name = true →
  match os_get_config_path_ptr USE_XDG getenv "" with
  | crashed msg => os_get_config_path USE_XDG getenv size name = crashed msg
  | returned path =>
      ∃ text,
        os_get_config_path USE_XDG getenv size name = returned (snprintf size text)
        ∧ path = text +:+ (if USE_XDG then "/" else "/.")
  end.
Proof.
  intros Hno. unfold os_get_config_path, os_get_config_path_ptr. rewrite Hno.
  unfold Dlopen.dstr_cat, Dlopen.dstr_init_copy.
  destruct USE_XDG;
    [destruct (getenv "XDG_CONFIG_HOME")|]; try destruct (getenv "HOME");
    try done; eexists; (split; [done|]); rewrite string_app_nil_r; try done.
  by rewrite string_app_assoc.
Qed.

Lemma config_path_no_name_witness :
  ∃ text,
    os_get_config_path true (env_of [("HOME", "/home/jim")]) 64 None
    = returned (snprintf 64 text)
    ∧ "/home/jim/.config/" = text +:+ "/".
Proof.
  apply (config_path_no_name true (env_of [("HOME", "/home/jim")]) 64 None).
  reflexivity.
Defined.

(** X16: both variants crash exactly when HOME is not set and is needed,
    that is, outside the XDG build or with XDG_CONFIG_HOME not set either.
    With XDG_CONFIG_HOME set in the XDG build, HOME plays no part. *)
Theorem config_path_crash USE_XDG getenv size name ptr_name :
  let home_needed :=
    getenv "HOME" = None ∧ (USE_XDG = false ∨ getenv "XDG_CONFIG_HOME" = None) in
  ((∃ msg, os_get_config_path USE_XDG getenv size name = crashed msg)
   ↔ home_needed)
  ∧ ((∃ msg, os_get_config_path_ptr USE_XDG getenv ptr_name = crashed msg)
     ↔ home_needed).
Proof.
  unfold os_get_config_path, os_get_config_path_ptr.
  destruct USE_XDG;
    [destruct (getenv "XDG_CONFIG_HOME")|]; destruct (getenv "HOME");
    destruct (no_name name); simpl; split; split;
    solve [ intros [? ?]; done | intros [? [?|?]]; done
          | intros _; by eexists | intros _; split; [done|by right]
          | intros _; split; [done|by left] ].
Qed.

End ConfigPathProps.

(** * More about the sleep inhibitor *)
Module InhibitMore.
Import Inhibit InhibitProps.

#[local] Open Scope Z_scope.

Lemma bus_held_snoc tr c :
  bus_held (tr ++ [c])
  = if c is c_dbus_inhibit_sleep _ act then act else bus_held tr.
Proof. unfold bus_held. by rewrite foldl_app. Qed.

Lemma bus_held_emit c w :
  bus_held (trace (emit c w))
  = if c is c_dbus_inhibit_sleep _ act then act else bus_held (trace w).
Proof. apply bus_held_snoc. Qed.

Lemma bus_held_bus_call (i : os_inhibit_info) act w :
  is_Some (dbus i) → bus_held (trace (bus_call i act w)) = act.
Proof. intros [d Hd]. unfold bus_call. rewrite Hd. by rewrite bus_held_emit. Qed.

Lemma set_active_bus_in_step create_ret (i : os_inhibit_info) act w :
  0 ≤ create_ret → bus_in_step (Some i, w) →
  bus_in_step (let '(_, info, w') :=
                 os_inhibit_sleep_set_active create_ret (Some i) act w
               in (info, w')).
Proof.
  intros Hret [Hheld Hi]. destruct (Hi i eq_refl) as [Hbus [ev Hev]].
  simpl in Hheld. destruct (decide (active i = act)) as [<-|Hne].
  - rewrite set_active_same. by split.
  - rewrite set_active_change by done. cbv zeta. rewrite Hev.
    assert ((create_ret <? 0) = false) as Hltb by (apply Z.ltb_ge; lia).
    destruct act; [rewrite Hltb|];
      (split;
       [simpl; by rewrite ?bus_held_snoc, ?bus_held_bus_call
       |intros ? [= <-]; split; [done|by eexists]]).
Qed.

Lemma destroy_bus_released (i : os_inhibit_info) w :
  bus_in_step (Some i, w) →
  bus_held (trace (os_inhibit_sleep_destroy (Some i) w)) = false.
Proof.
  intros [Hheld Hi]. destruct (Hi i eq_refl) as [Hbus [ev Hev]].
  simpl in Hheld. unfold os_inhibit_sleep_destroy. rewrite !bus_held_emit.
  destruct (active i) eqn:Hact.
  - rewrite set_active_change by (by rewrite Hact). cbv zeta. rewrite Hev.
    simpl. by rewrite !bus_held_snoc, bus_held_bus_call.
  - pose proof (set_active_same 0 i w) as Hsame. rewrite Hact in Hsame.
    by rewrite Hsame.
Qed.

Lemma apply_op_bus_in_step o s : possible o → bus_in_step s → bus_in_step (apply_op o s).
Proof.
  destruct s as [[i|] w]; intros Hpos Hin.
  - destruct o as [act create_ret|]; simpl.
    + by apply set_active_bus_in_step.
    + split; [by apply destroy_bus_released|done].
  - destruct o as [act create_ret|]; simpl; done.
Qed.

Lemma run_ops_bus_in_step ops s :
  Forall possible ops → bus_in_step s → bus_in_step (run_ops ops s).
Proof.
  intros Hpos. revert s. induction Hpos as [|o ops Ho _ IH]; intros s Hs; [done|].
  apply IH. by apply apply_op_bus_in_step.
Qed.

(** X17: a handle is created with a bus session and its stop event.
    Whatever [pthread_create] answers among 0 and the error numbers, after any
    sequence of [set_active] and [destroy] the desktop bus is left inhibited
    exactly when the handle is active; after [destroy] it is released. *)
Theorem bus_follows_active reason ops :
  Forall possible ops →
  bus_held (trace (session_run (Some dbus_session) true reason ops).2)
  = is_active (session_run (Some dbus_session) true reason ops).1.
Proof.
  intros Hpos. unfold session_run. simpl.
  edestruct (run_ops_bus_in_step ops) as [Hheld _]; [done| |exact Hheld].
  split; [done|]. intros i [= <-]. split; by eexists.
Qed.

Lemma bus_follows_active_witness :
  let ops := [op_set_active true 0; op_set_active true 0;
              op_set_active false 0; op_set_active true EAGAIN; op_destroy] in
  bus_held (trace (session_run (Some dbus_session) true "recording" ops).2)
  = is_active (session_run (Some dbus_session) true "recording" ops).1.
Proof.
  intros ops. apply (bus_follows_active "recording" ops).
  repeat constructor; vm_compute; discriminate.
Defined.

Lemma starts_reported o : starts o → reported o.
Proof. destruct o; simpl; [lia|done]. Qed.

(** X18: a handle is created with its stop event.  As long as every thread
    creation succeeds, after any sequence of [set_active] and [destroy] the
    watchdog runs exactly when the handle is active, and no thread was joined
    that was not running; after [destroy] no watchdog is left. *)
Theorem watchdog_follows_active session reason ops :
  Forall starts ops →
  watchdog (session_run session true reason ops).2
  = is_active (session_run session true reason ops).1
  ∧ fault (session_run session true reason ops).2 = false.
Proof.
  intros Hstarts. unfold session_run. simpl.
  edestruct (run_ops_in_step ops) as (Hwd & Hfault & _); [| |by split].
  - eapply Forall_impl; [exact Hstarts|]. apply starts_reported.
  - split_and!; [done..|]. intros i [= <-]. by eexists.
Qed.

Lemma watchdog_follows_active_witness :
  let ops := [op_set_active true 0; op_set_active true 0;
              op_set_active false 0; op_set_active true 0; op_destroy] in
  watchdog (session_run None true "recording" ops).2
  = is_active (session_run None true "recording" ops).1
  ∧ fault (session_run None true "recording" ops).2 = false.
Proof.
  intros ops. apply (watchdog_follows_active None "recording" ops).
  repeat constructor.
Defined.

(** *** A stopping call is never blocked for good *)

Lemma start_stage how (i : os_inhibit_info) st :
  active i = true → is_Some (stop_event i) → stage (start how i st).
Proof.
  intros Hact Hev. unfold start. rewrite calls_of_stop by done.
  apply sg_before.
  - destruct (dbus i); repeat constructor; done.
  - destruct how; repeat constructor; done.
Qed.

Lemma step_stage info cf cf' : step info cf cf' → stage cf → stage cf'.
Proof.
  intros Hstep Hst.
  destruct Hst as [pre post st s h Hpre Hpost|post st h Hpost|post s h Hpost
                  |post st s h Hpost];
    inversion Hstep as [c rest st' s' h' Hc Heq
                       |rest s' h' Heq
                       |p s' h' r st' tr Hw Hrun Heq]; subst.
  - destruct pre as [|c0 pre]; simplify_eq/=.
    + rewrite orb_true_r. by apply sg_signalled.
    + apply Forall_cons in Hpre as [_ Hpre]. by apply sg_before.
  - destruct pre as [|c0 pre]; simplify_eq/=.
    apply Forall_cons in Hpre as [[Hjoin _] _]. done.
  - by apply sg_before.
  - done.
  - by apply sg_joined.
  - rewrite (thread_turn_signalled _ _ _ _ Hw Hrun). by apply sg_exited.
  - done.
  - by apply sg_joined.
  - apply Forall_cons in Hpost as [_ Hpost]. by apply sg_joined.
  - by apply Forall_cons in Hpost as [? _].
  - by apply sg_joined.
Qed.

Lemma rtc_step_stage info cf cf' : rtc (step info) cf cf' → stage cf → stage cf'.
Proof. induction 1; eauto using step_stage. Qed.

(** From the join on: with the watchdog gone the join returns; with the
    watchdog waiting and the event set, its wait ends and it goes. *)
Lemma finish_from_join info post st s h :
  no_join post → st = Exited ∨ (st = Waiting ∧ s = true) →
  ∃ cf, rtc (step info)
          {| pending := c_pthread_join :: post; wd := st; signalled := s; hist := h |}
          cf
        ∧ pending cf = [].
Proof.
  intros Hpost [->|[-> ->]].
  - eexists. split.
    + eapply rtc_l; [apply step_join|].
      rewrite <-(app_nil_r post) at 1. by apply run_calls.
    + reflexivity.
  - eexists. split.
    + eapply rtc_l.
      { by apply (step_watchdog info _ _ _
                    {| wait_ret := 0; spawn_ret := 0; waitpid_rets := [] |}
                    Exited [c_os_event_timedwait 30000 0]). }
      eapply rtc_l; [apply step_join|].
      rewrite <-(app_nil_r post) at 1. by apply run_calls.
    + reflexivity.
Qed.

Lemma finish_stage info cf :
  stage cf → wd cf ≠ Reaping →
  ∃ cf', rtc (step info) cf cf' ∧ pending cf' = [].
Proof.
  intros Hst Hwd.
  destruct Hst as [pre post st s h Hpre Hpost|post st h Hpost|post s h Hpost
                  |post st s h Hpost]; simpl in Hwd.
  - assert (no_join (pre ++ [c_os_event_signal])) as Hpre'.
    { apply Forall_app. split; [|by repeat constructor].
      eapply Forall_impl; [exact Hpre|]. by intros c [? _]. }
    pose proof (run_calls info (pre ++ [c_os_event_signal])
                  (c_pthread_join :: post) st s h Hpre') as Hrun.
    rewrite <-app_assoc in Hrun.
    rewrite bool_decide_eq_true_2, orb_true_r in Hrun
      by (apply elem_of_app; right; by left).
    edestruct (finish_from_join info post st true) as (cf & Hcf & Hend);
      [done| |].
    { destruct st; [by right|done|by left]. }
    exists cf. split; [|done]. etrans; [exact Hrun|exact Hcf].
  - apply finish_from_join; [done|]. destruct st; [by right|done|by left].
  - apply finish_from_join; [done|by left].
  - eexists. split.
    + rewrite <-(app_nil_r post) at 1. by apply run_calls.
    + reflexivity.
Qed.

(** X19: an active handle with its stop event, the event clear, and the
    caller in [set_active (h, false)] or in [destroy (h)].  From every
    configuration the two threads can get to, unless the watchdog sits in
    [waitpid] for a child that does not end, the caller can still make all
    its calls and return: the signal is not lost and the join is not waited
    for in vain. *)
Theorem stop_never_stuck how (i : os_inhibit_info) st cf :
  active i = true → is_Some (stop_event i) →
  rtc (step i) (start how i st) cf → wd cf ≠ Reaping →
  ∃ cf', rtc (step i) cf cf' ∧ pending cf' = [].
Proof.
  intros Hact Hev Hrun Hwd. apply finish_stage; [|done].
  eapply rtc_step_stage; [exact Hrun|]. by apply start_stage.
Qed.

(** In [destroy], after a reset of the screensaver by the watchdog and the
    release of the inhibition by the caller. *)
Lemma stop_never_stuck_witness :
  let i := active_handle (Some dbus_session) in
  let spawn := c_posix_spawnp "xdg-screensaver" ["xdg-screensaver"; "reset"]
                 (attr i) 0 in
  let cf := {| pending := [c_os_event_signal; c_pthread_join;
                           c_dbus_sleep_info_destroy (Some dbus_session);
                           c_os_event_destroy; c_posix_spawnattr_destroy;
                           c_bfree "reason"; c_bfree "info"];
               wd := Waiting; signalled := false;
               hist := [by_watchdog (c_os_event_timedwait 30000 ETIMEDOUT);
                        by_watchdog spawn; by_watchdog (c_waitpid 4321);
                        by_caller (c_dbus_inhibit_sleep "recording" false)] |} in
  rtc (step i) (start stop_destroy i Waiting) cf
  ∧ ∃ cf', rtc (step i) cf cf' ∧ pending cf' = [].
Proof.
  intros i spawn cf.
  assert (rtc (step i) (start stop_destroy i Waiting) cf) as Hrun.
  { eapply rtc_l.
    { apply (step_watchdog i _ _ _
               {| wait_ret := ETIMEDOUT; spawn_ret := 0; waitpid_rets := [4321] |}
               Waiting
               [c_os_event_timedwait 30000 ETIMEDOUT; spawn; c_waitpid 4321]);
        reflexivity. }
    eapply rtc_l; [apply step_call; discriminate|].
    apply rtc_refl. }
  split; [exact Hrun|].
  apply (stop_never_stuck stop_destroy i Waiting cf);
    [reflexivity | by eexists | exact Hrun | discriminate].
Defined.

(** *** What the watchdog spawns *)

Lemma reap_no_spawn rets c : c ∈ (reap rets).2 → is_spawn c = false.
Proof.
  induction rets as [|r rets IH]; simpl; [by intros ?%elem_of_nil|].
  destruct (r =? -1).
  - destruct (reap rets) as [done tr]. simpl in *.
    intros [->|Hin]%elem_of_cons; [done|by apply IH].
  - by intros ->%list_elem_of_singleton.
Qed.

Lemma reset_screensaver_spawn info r c :
  c ∈ (reset_screensaver info r).2 → is_spawn c = true →
  c = c_posix_spawnp "xdg-screensaver" ["xdg-screensaver"; "reset"]
        (attr info) (spawn_ret r).
Proof.
  unfold reset_screensaver. destruct (spawn_ret r =? 0).
  - pose proof (reap_no_spawn (waitpid_rets r) c) as Hreap.
    destruct (reap (waitpid_rets r)) as [done tr]. simpl in *.
    intros [->|Hin]%elem_of_cons Hc; [done|].
    rewrite Hreap in Hc; done.
  - simpl. intros [->|Hin]%elem_of_cons Hc; [done|].
    apply list_elem_of_singleton in Hin as ->. done.
Qed.

Lemma screensaver_thread_spawn info rounds c :
  c ∈ (screensaver_thread info rounds).2 → is_spawn c = true →
  ∃ ret, c = c_posix_spawnp "xdg-screensaver" ["xdg-screensaver"; "reset"]
               (attr info) ret.
Proof.
  induction rounds as [|r rounds IH]; cbn [screensaver_thread];
    [by intros ?%elem_of_nil|].
  destruct (wait_ret r =? ETIMEDOUT).
  - pose proof (reset_screensaver_spawn info r c) as Hreset.
    destruct (reset_screensaver info r) as [[] tr]; simpl in Hreset.
    + destruct (screensaver_thread info rounds) as [st tr']. simpl in *.
      intros [->|[Hin|Hin]%elem_of_app]%elem_of_cons Hc; [done|by eauto..].
    + simpl. intros [->|Hin]%elem_of_cons Hc; [done|by eauto].
  - simpl. by intros ->%list_elem_of_singleton.
Qed.

(** X22: whatever happened to a created handle since (its flag set or
    cleared), every subprocess its watchdog spawns is [xdg-screensaver reset],
    looked up on the PATH, started with an empty signal mask and with SIGPIPE
    back at its default action, both attributes being in force. *)
Theorem watchdog_spawns session event_ok reason w act rounds c :
  let info := with_active (os_inhibit_sleep_create session event_ok reason w).1 act in
  c ∈ (screensaver_thread info rounds).2 → is_spawn c = true →
  ∃ ret,
    c = c_posix_spawnp "xdg-screensaver" ["xdg-screensaver"; "reset"]
          {| sa_sigmask := []; sa_sigdefault := [SIGPIPE];
             sa_flags := [POSIX_SPAWN_SETSIGDEF; POSIX_SPAWN_SETSIGMASK] |}
          ret.
Proof. intros info Hin Hc. by apply (screensaver_thread_spawn info rounds c). Qed.

Lemma watchdog_spawns_witness :
  ∃ ret,
    c_posix_spawnp "xdg-screensaver" ["xdg-screensaver"; "reset"]
      (attr (active_handle None)) 2
    = c_posix_spawnp "xdg-screensaver" ["xdg-screensaver"; "reset"]
        {| sa_sigmask := []; sa_sigdefault := [SIGPIPE];
           sa_flags := [POSIX_SPAWN_SETSIGDEF; POSIX_SPAWN_SETSIGMASK] |}
        ret.
Proof.
  apply (watchdog_spawns None true "recording" idle true
           [ {| wait_ret := ETIMEDOUT; spawn_ret := 2; waitpid_rets := [] |} ]).
  - vm_compute. apply elem_of_cons. right. apply elem_of_cons. by left.
  - reflexivity.
Defined.

End InhibitMore.

(** * Directory listing *)
Module ListingProps.
Import Listing.

Example listing_sample :
  readdir_times sample_stat 6 (os_opendir sample_opendir "/etc/obs")
  = ([Some {| d_name := "."; directory := true |};
      Some {| d_name := ".."; directory := true |};
      Some {| d_name := "plugins"; directory := true |};
      Some {| d_name := "global.ini"; directory := false |};
      Some {| d_name := "stale"; directory := false |};
      None],
     [c_blog LOG_DEBUG "is_dir: stat for %s failed, errno: %d" "/etc/obs/stale" 2]).
Proof. reflexivity. Qed.

Example listing_no_directory :
  readdir_times sample_stat 2 (os_opendir sample_opendir "/nowhere") = ([None; None], []).
Proof. reflexivity. Qed.

Lemma readdir_times_end stat n path cur o :
  readdir_times stat n
    (Some {| path := path; dir := []; cur_dirent := cur; out := o |})
  = (replicate n None, []).
Proof.
  revert cur. induction n as [|n IH]; intros cur; [done|].
  cbn [readdir_times os_readdir dir Listing.path out]. by rewrite IH.
Qed.

Lemma readdir_times_names stat path names extra cur o :
  Forall (λ name, String.length name ≤ 255) names →
  readdir_times stat (length names + extra)
    (Some {| path := path; dir := names; cur_dirent := cur; out := o |})
  = ((Some <$> (entry_of stat path <$> names)) ++ replicate extra None,
     names ≫= stat_log stat path).
Proof.
  intros Hnames. revert cur o.
  induction Hnames as [|name names Hlen _ IH]; intros cur o.
  - apply readdir_times_end.
  - cbn [length Nat.add readdir_times os_readdir dir Listing.path].
    rewrite ConfigPathProps.substring_whole by done.
    unfold is_dir, Dlopen.dstr_cat, Dlopen.dstr_init_copy.
    rewrite ConfigPathProps.string_app_assoc.
    cbn [fmap list_fmap app mbind list_bind]. unfold entry_of at 1, stat_log at 1.
    destruct (stat (path +:+ "/" +:+ name)) as [[]|errno]; by rewrite IH.
Qed.

(** X20: reading an opened directory call after call delivers one entry
    for every name in it, "." and ".." included, in the order of [readdir],
    each marked as a directory exactly when [stat] of the directory path, "/"
    and the name succeeds and says so; a name whose [stat] fails is delivered
    as not a directory, with one line in the debug log.  Every further call
    returns NULL. *)
Theorem os_readdir_lists opendir stat path names extra :
  opendir path = Some names →
  Forall (λ name, String.length name ≤ 255) names →
  readdir_times stat (length names + extra) (os_opendir opendir path)
  = ((Some <$> (entry_of stat path <$> names)) ++ replicate extra None,
     names ≫= stat_log stat path).
Proof.
  intros Hopen Hnames. unfold os_opendir. rewrite Hopen.
  by apply readdir_times_names.
Qed.

Lemma os_readdir_lists_witness :
  let names := ["."; ".."; "plugins"; "global.ini"; "stale"] in
  readdir_times sample_stat (length names + 1)
    (os_opendir sample_opendir "/etc/obs")
  = ((Some <$> (entry_of sample_stat "/etc/obs" <$> names)) ++ replicate 1 None,
     names ≫= stat_log sample_stat "/etc/obs").
Proof.
  intros names.
  apply (os_readdir_lists sample_opendir sample_stat "/etc/obs" names 1);
    [reflexivity | repeat constructor; simpl; lia].
Defined.

End ListingProps.

(** * More about os_dlopen *)
Module DlopenMore.
Import Dlopen DlopenProps.

Lemma strstr_occurs hay needle t :
  strstr hay needle = Some t → occurs_in needle hay.
Proof.
  revert t. induction hay as [|a hay IH]; intros t; rewrite strstr_unfold;
    destruct (String.prefix needle _) eqn:Hp; try done.
  - intros _. apply prefix_app in Hp as [post ->]. by exists "", post.
  - intros _. apply prefix_app in Hp as [post ->]. by exists "", post.
  - intros Hs. destruct (IH _ Hs) as (pre & post & ->).
    exists (String a pre), post. by rewrite append_cons.
Qed.

(** X21: the name [os_dlopen] hands to the loader always contains ".so",
    and handing that name to [os_dlopen] again loads the very same file: the
    suffix is added at most once. *)
Theorem os_dlopen_name_settles dlopen dlerror (path : string) :
  ∃ name,
    loads (os_dlopen dlopen dlerror (Some path)).2 = [name]
    ∧ occurs_in ".so" name
    ∧ loads (os_dlopen dlopen dlerror (Some name)).2 = [name]
    ∧ (os_dlopen dlopen dlerror (Some name)).1
      = (os_dlopen dlopen dlerror (Some path)).1.
Proof.
  pose proof (os_dlopen_calls dlopen dlerror path) as [Hres Hloads].
  cbv zeta in Hres, Hloads. unfold dstr_find in Hres, Hloads.
  set (name := if strstr path ".so" is None then path +:+ ".so" else path) in *.
  assert (occurs_in ".so" name) as Hocc.
  { subst name. destruct (strstr path ".so") eqn:Hs.
    - by eapply strstr_occurs.
    - exists path, "". by rewrite ConfigPathProps.string_app_nil_r. }
  pose proof (os_dlopen_calls dlopen dlerror name) as [Hres' Hloads'].
  cbv zeta in Hres', Hloads'. unfold dstr_find in Hres', Hloads'.
  destruct (strstr_Some name ".so" Hocc) as [t Ht]. rewrite Ht in Hres', Hloads'.
  exists name. split_and!; [done|done|done|congruence].
Qed.

End DlopenMore.
